(** * main_ComputeMatches: putative matching orchestration

    Shallow embedding of [src/software/SfM/main_ComputeMatches.cpp].

    The translation unit holds a single function, [main].  It parses the
    command line, loads the scene and the regions, either reloads a previous
    match file or runs a matcher and saves its result, and finally exports two
    diagnostics.  Every other function it calls lives in the openMVG library or
    in third-party code; those collaborators are either taken as parameters
    (record [Collaborators]) or, where the specification describes them,
    modelled from the specification (each such definition says so). *)

From Stdlib Require Import QArith.QArith_base.
From stdpp Require Import gmap strings list fin_maps fin_sets.

Local Open Scope Z_scope.
Local Open Scope string_scope.
Local Open Scope list_scope.

(** ** Data model *)

(** [IndexT] is a 32-bit unsigned integer; no arithmetic is done on it here. *)
Definition IndexT := N.

(** [std::pair<IndexT, IndexT>] and [std::set<Pair>]. *)
Definition Pair : Type := IndexT * IndexT.
Abbreviation Pair_Set := (gset Pair).

Record View := {
  id_view : IndexT;
  s_Img_path : string;
  ui_width : N;
  ui_height : N
}.

(** [SfM_Data], restricted to what [main] reads: the root path and the views,
    a map from view identifier to view. *)
Record SfM_Data := {
  s_root_path : string;
  views : gmap IndexT View
}.

Definition GetViews (d : SfM_Data) : gmap IndexT View := views d.

(** The regions type read from [image_describer.json]: [main] only asks it
    [IsScalar()] and [IsBinary()]. *)
Record Regions := {
  IsScalar : bool;
  IsBinary : bool
}.

(** The descriptors of one view.  A descriptor is a fixed-length vector of
    numbers or of bits. *)
Definition Descriptor := list Z.
Definition RegionSet := list Descriptor.

(** [IndMatch]: a pair of descriptor indices. *)
Record IndMatch := { i_ : N; j_ : N }.

(** [PairWiseMatches = std::map<Pair, IndMatches>]. *)
Abbreviation PairWiseMatches := (gmap Pair (list IndMatch)).

(** The members of [EMatcherType] that [main] names. *)
Inductive EMatcherType :=
| BRUTE_FORCE_L2
| ANN_L2
| CASCADE_HASHING_L2
| HNSW_L2
| BRUTE_FORCE_HAMMING.

(** The two classes [main] instantiates behind [std::unique_ptr<Matcher>]. *)
Inductive Matcher :=
| Matcher_Regions (distRatio : Q) (eMatcherType : EMatcherType)
| Cascade_Hashing_Matcher_Regions (distRatio : Q).

(** The local variables that [cmd.process] fills in.  [fDistRatio] is a
    [float] in the source; [main] only hands it to the matcher, and it is kept
    as a rational number here. *)
Record Options := {
  sSfM_Data_Filename : string;
  sOutputFilename : string;
  fDistRatio : Q;
  sPredefinedPairList : string;
  sNearestMatchingMethod : string;
  bForce : bool;
  ui_max_cache_size : N
}.

(** Their initial values, lines 67-73.  The ratio is the value of the literal
    [0.8f], the single precision number 13421773 / 2^24. *)
Definition initial_options : Options := {|
  sSfM_Data_Filename := EmptyString;
  sOutputFilename := EmptyString;
  fDistRatio := Qmake 13421773 16777216;
  sPredefinedPairList := EmptyString;
  sNearestMatchingMethod := "AUTO";
  bForce := false;
  ui_max_cache_size := 0%N
|}.

Definition EXIT_SUCCESS : Z := 0.
Definition EXIT_FAILURE : Z := 1.

(** ** The match graph *)

(** Modelled from the spec: [graph::indexedGraph] (openMVG/graph/graph.hpp is
    outside this translation unit).  Section 3: a MatchGraph has a node per
    view identifier it is built from and an edge per pair it is given. *)
Record indexedGraph := {
  graph_nodes : gset IndexT;
  graph_edges : Pair_Set
}.

(** Modelled from the spec: the constructor of [graph::indexedGraph] from a set
    of nodes and a set of pairs.  Section 4.5: every view identifier is a node,
    even with no edge. *)
Definition make_indexedGraph (nodes : gset IndexT) (pairs : Pair_Set) : indexedGraph :=
  {| graph_nodes := nodes; graph_edges := pairs |}.

(** An entry of the result whose correspondence list is not empty. *)
Definition has_matches (kv : Pair * list IndMatch) : Prop := kv.2 ≠ [].

(** Modelled from the spec: [getPairs] (openMVG/matching/indMatch.hpp is
    outside this translation unit).  Section 3: the edges of the MatchGraph are
    the pair keys present in PutativeMatches with a nonempty correspondence
    list. *)
Definition getPairs (m : PairWiseMatches) : Pair_Set :=
  dom (filter has_matches m).

(** ** The outside world *)

(** One entry of a pair-list file: two view identifiers, or text that does not
    parse as such. *)
Inductive PairLine :=
| PairOf (i j : IndexT)
| Garbled (text : string).

(** What can be found at the path of a match file. *)
Inductive MatchesFile :=
| SerializedMatches (m : PairWiseMatches)
| NotAMatchesFile (text : string).

(** What the two exporters leave behind. *)
Inductive Diagnostic :=
| AdjacencyMatrixSVG (NbImages : nat) (m : PairWiseMatches)
| GraphvizData (g : indexedGraph).

(** The files [main] reads and writes.  Scene descriptions, describer files,
    per-view region files (one per directory and view) and pair lists are
    inputs.  The specification lists the match file and the diagnostics as
    separate outputs (section 6); they are kept in two stores here, the match
    files being the MatchStore of section 4.4.  [read_only] lists the paths
    that cannot be written. *)
Record World := {
  sfm_data_files : gmap string SfM_Data;
  image_describer_files : gmap string Regions;
  regions_files : gmap (string * IndexT) RegionSet;
  pair_files : gmap string (list PairLine);
  matches_files : gmap string MatchesFile;
  diagnostics : gmap string Diagnostic;
  read_only : gset string
}.

Definition set_matches_files (f : gmap string MatchesFile) (w : World) : World :=
  {| sfm_data_files := sfm_data_files w;
     image_describer_files := image_describer_files w;
     regions_files := regions_files w;
     pair_files := pair_files w;
     matches_files := f;
     diagnostics := diagnostics w;
     read_only := read_only w |}.

Definition set_diagnostics (d : gmap string Diagnostic) (w : World) : World :=
  {| sfm_data_files := sfm_data_files w;
     image_describer_files := image_describer_files w;
     regions_files := regions_files w;
     pair_files := pair_files w;
     matches_files := matches_files w;
     diagnostics := d;
     read_only := read_only w |}.

(** What [main] itself writes to [std::cerr], one constructor per statement.
    The usage path has two: the usage text (lines 93-116), then the string that
    was thrown (line 118), which is the one of line 88 or the one [cmd.process]
    threw. *)
Inductive ErrorMessage :=
| Usage
| Invalid_command_line_parameter
| Thrown_by_cmd_process
| No_input_pairs_file_set
| No_output_file_set
| SfM_Data_cannot_be_read (filename : string)
| Invalid_regions_type_file (filename : string)
| Invalid_regions
| Cannot_load_input_matches_file
| Invalid_Nearest_Neighbor_method (method : string)
| Failed_to_load_pairs_from_file (filename : string)
| Cannot_save_computed_matches_in (filename : string).

(** The calls [main] makes to its collaborators, in program order. *)
Inductive Event :=
| Cerr (msg : ErrorMessage)
| Call_Load_SfM_Data (filename : string)
| Call_Init_region_type_from_file (filename : string)
| Call_regions_provider_load (max_cache_size : N) (dir : string)
| Call_file_exists (filename : string)
| Call_Load_matches (filename : string)
| Call_loadPairs (N : nat) (filename : string)
| Call_Match (matcher : Matcher) (pairs : Pair_Set)
| Call_Save (m : PairWiseMatches) (filename : string)
| Call_PairWiseMatchingToAdjacencyMatrixSVG (NbImages : nat) (m : PairWiseMatches) (filename : string)
| Call_exportToGraphvizData (filename : string) (g : indexedGraph).

Record Machine := {
  world : World;
  trace : list Event
}.

(** ** A monad for a C++ function body with early [return] *)

Inductive flow (A : Type) :=
| Next (a : A)
| Return (status : Z).
Arguments Next {A} a.
Arguments Return {A} status.

Definition Run (A : Type) : Type := Machine → flow A * Machine.

#[global] Instance Run_ret : MRet Run := λ A a s, (Next a, s).

#[global] Instance Run_bind : MBind Run := λ A B f c s,
  match c s with
  | (Next a, s') => f a s'
  | (Return z, s') => (Return z, s')
  end.

Definition return_ {A} (status : Z) : Run A := λ s, (Return status, s).

Definition emit (e : Event) : Run unit :=
  λ s, (Next tt, {| world := world s; trace := trace s ++ [e] |}).

Definition read {A} (f : World → A) : Run A := λ s, (Next (f (world s)), s).

Definition update (f : World → World) : Run unit :=
  λ s, (Next tt, {| world := f (world s); trace := trace s |}).

(** A failing exit: the message on [std::cerr], then [return EXIT_FAILURE]. *)
Definition fail_with {A} (msg : ErrorMessage) : Run A :=
  emit (Cerr msg);; return_ EXIT_FAILURE.

(** ** Collaborators taken as parameters *)

(** Third-party helpers and the descriptor-matching kernel.  [cmd_process]
    stands for [CmdLine::process]: it overwrites the options it finds on the
    command line and answers [None] when it throws.  [folder_part] and the two
    overloads of [create_filespec] are stlplus's.  [match_regions] is the
    nearest-neighbour search with ratio test of the chosen matcher, applied to
    the regions of two views. *)
Record Collaborators := {
  cmd_process : list string → Options → option Options;
  folder_part : string → string;
  create_filespec : string → string → string;
  create_filespec_ext : string → string → string → string;
  match_regions : Matcher → RegionSet → RegionSet → list IndMatch
}.

(** ** The regions provider *)

(** Modelled from the spec: [Regions_Provider] and [Regions_Provider_Cache]
    (openMVG/sfm/pipelines/sfm_regions_provider*.hpp are outside this
    translation unit).  Section 4.1: the unbounded provider holds every view's
    RegionSet; the bounded one remembers where the data lives and which views
    exist, and keeps at most [max_cache_size] RegionSets, most recently used
    first. *)
Inductive provider :=
| Regions_Provider (cache_ : gmap IndexT RegionSet)
| Regions_Provider_Cache (max_cache_size : N) (dir : string)
    (known : gset IndexT) (lru : list (IndexT * RegionSet)).

(** Modelled from the spec: [Regions_Provider::load].  Section 4.1: the
    unbounded provider loads every view's RegionSet eagerly at startup (and
    construction fails when one of them cannot be loaded); the bounded provider
    loads nothing before the first fetch. *)
Definition provider_load (w : World) (p : provider) (sfm_data : SfM_Data)
    (feat_directory : string) (regions_type : Regions) : option provider :=
  match p with
  | Regions_Provider _ =>
      let loaded := map_imap (λ id _, regions_files w !! (feat_directory, id))
                             (GetViews sfm_data) in
      if decide (dom loaded = dom (GetViews sfm_data))
      then Some (Regions_Provider loaded) else None
  | Regions_Provider_Cache c _ _ _ =>
      Some (Regions_Provider_Cache c feat_directory (dom (GetViews sfm_data)) [])
  end.

(** Modelled from the spec: the lookup of a view among the cached entries
    (section 4.1, a fetch on an already-cached view). *)
Definition resident (id : IndexT) (lru : list (IndexT * RegionSet)) : option RegionSet :=
  snd <$> List.find (λ e, N.eqb e.1 id) lru.

(** Modelled from the spec: the entries without a view, used to move it to
    the front (section 4.1, a recency touch evicts nothing). *)
Definition forget (id : IndexT) (lru : list (IndexT * RegionSet)) : list (IndexT * RegionSet) :=
  filter (λ e, e.1 ≠ id) lru.

(** Modelled from the spec: room for one more entry.  Section 4.1: when
    inserting a new entry would exceed the capacity, the least recently used
    entry, the last one, is evicted first. *)
Definition make_room (c : N) (lru : list (IndexT * RegionSet)) : list (IndexT * RegionSet) :=
  if decide (length lru < N.to_nat c)%nat then lru else removelast lru.

(** Modelled from the spec: [Regions_Provider::get], the [fetch] of section
    4.1.  Unbounded: a lookup.  Bounded: a resident view is moved to the front
    and nothing is evicted; a view that is not resident is loaded, after the
    least recently used entry has been evicted if the cache is full.  An
    unknown view or unreadable data gives [None] (NotFound). *)
Definition fetch (w : World) (p : provider) (id : IndexT) : option RegionSet * provider :=
  match p with
  | Regions_Provider cache => (cache !! id, p)
  | Regions_Provider_Cache c d known lru =>
      if decide (id ∈ known) then
        match resident id lru with
        | Some r => (Some r, Regions_Provider_Cache c d known ((id, r) :: forget id lru))
        | None =>
            match regions_files w !! (d, id) with
            | Some r => (Some r, Regions_Provider_Cache c d known ((id, r) :: make_room c lru))
            | None => (None, p)
            end
        end
      else (None, p)
  end.

(** The views a provider holds in memory. *)
Definition held (p : provider) : list IndexT :=
  match p with
  | Regions_Provider cache => elements (dom cache)
  | Regions_Provider_Cache _ _ _ lru => lru.*1
  end.

(** ** The pair source *)

Inductive PairError := InvalidPair | ParseError.

(** The canonical key of an unordered pair: smaller identifier first. *)
Definition canonical (p : Pair) : Pair := (N.min p.1 p.2, N.max p.1 p.2).

(** Modelled from the spec: [loadPairs] (openMVG/matching_image_collection/
    Pair_Builder.hpp is outside this translation unit).  Section 4.2: fails
    with InvalidPair if a referenced identifier is not below the view count and
    with ParseError if the source is malformed; the result is a set of
    canonical keys. *)
Fixpoint read_pairs (n : N) (src : list PairLine) (pairs : Pair_Set) : PairError + Pair_Set :=
  match src with
  | [] => inr pairs
  | Garbled _ :: _ => inl ParseError
  | PairOf i j :: rest =>
      if decide (i < n ∧ j < n)%N
      then read_pairs n rest ({[ canonical (i, j) ]} ∪ pairs)
      else inl InvalidPair
  end.

(** Modelled from the spec: [loadPairs] on a file of the world; a file that
    is not there is a source that cannot be parsed. *)
Definition loadPairs_from (w : World) (n : nat) (sFileName : string) : PairError + Pair_Set :=
  match pair_files w !! sFileName with
  | Some src => read_pairs (N.of_nat n) src ∅
  | None => inl ParseError
  end.

(** ** The match store *)

(** Modelled from the spec: [Save] and [Load] for [PairWiseMatches]
    (openMVG/matching/indMatch_utils.hpp is outside this translation unit).
    Section 4.4: [save] writes the complete result set, or fails and leaves
    nothing behind; [load] fails if the file is unreadable or malformed. *)
Definition Save_matches (m : PairWiseMatches) (filename : string) : Run bool :=
  emit (Call_Save m filename);;
  w ← read id;
  if decide (filename ∈ read_only w) then mret false
  else
    update (set_matches_files (<[filename := SerializedMatches m]> (matches_files w)));;
    mret true.

(** Modelled from the spec: what [Load] makes of the content of a path.
    Section 4.4: [load] fails if the file is unreadable or malformed. *)
Definition parse_matches (f : option MatchesFile) : option PairWiseMatches :=
  match f with
  | Some (SerializedMatches m) => Some m
  | _ => None
  end.

(** Modelled from the spec: [Load] for [PairWiseMatches] (section 4.4). *)
Definition Load_matches (filename : string) : Run (option PairWiseMatches) :=
  emit (Call_Load_matches filename);;
  read (λ w, parse_matches (matches_files w !! filename)).

(** Modelled from the spec: [stlplus::file_exists], asked of the match store.
    Section 4.4: an output already exists at the target path. *)
Definition file_exists (filename : string) : Run bool :=
  emit (Call_file_exists filename);;
  read (λ w, bool_decide (is_Some (matches_files w !! filename))).

(** ** Readers of the inputs *)

(** Modelled from the spec: [Load(sfm_data, filename, ESfM_Data(VIEWS |
    INTRINSICS))] (openMVG/sfm/sfm_data_io.hpp is outside this translation
    unit).  Section 6: the scene description is a read-only input; section 7:
    it is readable or the run fails. *)
Definition Load_SfM_Data (filename : string) : Run (option SfM_Data) :=
  emit (Call_Load_SfM_Data filename);;
  read (λ w, sfm_data_files w !! filename).

(** Modelled from the spec: [Init_region_type_from_file].  Section 6: the
    descriptor-type declaration is a read-only input; section 7: it is
    readable or the run fails. *)
Definition Init_region_type_from_file (filename : string) : Run (option Regions) :=
  emit (Call_Init_region_type_from_file filename);;
  read (λ w, image_describer_files w !! filename).

(** The capacity a provider was built with, 0 for the unbounded one. *)
Definition capacity_of (p : provider) : N :=
  match p with
  | Regions_Provider _ => 0%N
  | Regions_Provider_Cache c _ _ _ => c
  end.

(** Modelled from the spec: [regions_provider->load], as a call of [main]. *)
Definition regions_provider_load (p : provider) (sfm_data : SfM_Data)
    (feat_directory : string) (regions_type : Regions) : Run (option provider) :=
  emit (Call_regions_provider_load (capacity_of p) feat_directory);;
  read (λ w, provider_load w p sfm_data feat_directory regions_type).

(** Modelled from the spec: [loadPairs], as a call of [main], which only
    sees whether it succeeded. *)
Definition loadPairs (n : nat) (sFileName : string) : Run (option Pair_Set) :=
  emit (Call_loadPairs n sFileName);;
  read (λ w, match loadPairs_from w n sFileName with
             | inr pairs => Some pairs
             | inl _ => None
             end).

(** ** The exporters *)

(** Modelled from the spec: the writing half of
    [PairWiseMatchingToAdjacencyMatrixSVG] and [exportToGraphvizData].  Section
    4.5: a diagnostic is written at its target; when the target cannot be
    written the failure is reported and nothing else happens.  Neither function
    hands a result back to [main]. *)
Definition export_diagnostic (filename : string) (d : Diagnostic) (w : World) : World :=
  if decide (filename ∈ read_only w) then w
  else set_diagnostics (<[filename := d]> (diagnostics w)) w.

(** Modelled from the spec: [PairWiseMatchingToAdjacencyMatrixSVG], the
    adjacency-matrix visualization of section 4.5. *)
Definition PairWiseMatchingToAdjacencyMatrixSVG (NbImages : nat)
    (map_Matches : PairWiseMatches) (sOutName : string) : Run unit :=
  emit (Call_PairWiseMatchingToAdjacencyMatrixSVG NbImages map_Matches sOutName);;
  update (export_diagnostic sOutName (AdjacencyMatrixSVG NbImages map_Matches)).

(** Modelled from the spec: [exportToGraphvizData], the graph-description
    output of section 4.5. *)
Definition exportToGraphvizData (sfile : string) (g : indexedGraph) : Run unit :=
  emit (Call_exportToGraphvizData sfile g);;
  update (export_diagnostic sfile (GraphvizData g)).

(** [v ← require o msg] continues with the content of [o], or prints [msg] and
    returns [EXIT_FAILURE]. *)
Definition require {A} (o : option A) (msg : ErrorMessage) : Run A :=
  match o with
  | Some a => mret a
  | None => fail_with msg
  end.

(** [check b msg] continues when [b] holds, and otherwise prints [msg] and
    returns [EXIT_FAILURE]. *)
Definition check (b : bool) (msg : ErrorMessage) : Run unit :=
  if b then mret tt else fail_with msg.

(** ** The program *)

(** Lines 243-286: the matcher allocated for a method name.  [None] is the
    null [collectionMatcher]. *)
Definition collectionMatcher (sNearestMatchingMethod : string)
    (regions_type : Regions) (fDistRatio : Q) : option Matcher :=
  if String.eqb sNearestMatchingMethod "AUTO" then
    if IsScalar regions_type then
      Some (Cascade_Hashing_Matcher_Regions fDistRatio)
    else if IsBinary regions_type then
      Some (Matcher_Regions fDistRatio BRUTE_FORCE_HAMMING)
    else None
  else if String.eqb sNearestMatchingMethod "BRUTEFORCEL2" then
    Some (Matcher_Regions fDistRatio BRUTE_FORCE_L2)
  else if String.eqb sNearestMatchingMethod "BRUTEFORCEHAMMING" then
    Some (Matcher_Regions fDistRatio BRUTE_FORCE_HAMMING)
  else if String.eqb sNearestMatchingMethod "HNSWL2" then
    Some (Matcher_Regions fDistRatio HNSW_L2)
  else if String.eqb sNearestMatchingMethod "ANNL2" then
    Some (Matcher_Regions fDistRatio ANN_L2)
  else if String.eqb sNearestMatchingMethod "CASCADEHASHINGL2" then
    Some (Matcher_Regions fDistRatio CASCADE_HASHING_L2)
  else if String.eqb sNearestMatchingMethod "FASTCASCADEHASHINGL2" then
    Some (Cascade_Hashing_Matcher_Regions fDistRatio)
  else None.

(** Lines 186-195: the provider chosen by the cache size. *)
Definition regions_provider (ui_max_cache_size : N) : provider :=
  if N.eqb ui_max_cache_size 0 then Regions_Provider ∅
  else Regions_Provider_Cache ui_max_cache_size EmptyString ∅ [].

(** Lines 322-323: the keys of the views, inserted in a [std::set]. *)
Definition set_ViewIds (sfm_data : SfM_Data) : gset IndexT :=
  list_to_set (fst <$> map_to_list (GetViews sfm_data)).

(** Line 324. *)
Definition putativeGraph (sfm_data : SfM_Data) (map_PutativesMatches : PairWiseMatches) : indexedGraph :=
  make_indexedGraph (set_ViewIds sfm_data) (getPairs map_PutativesMatches).

Section Program.

Context (X : Collaborators).

(** Modelled from the spec: [Matcher::Match] (openMVG/matching_image_collection
    is outside this translation unit).  Section 4.3: for each pair of the
    input set the engine fetches both RegionSets through the cache, keeps the
    correspondences that pass the ratio test (none if the second view has
    fewer than two descriptors, none if a fetch fails), and stores the list,
    possibly empty, under the pair's canonical key. *)
Definition Match_pair (w : World) (matcher : Matcher) (p : provider) (pr : Pair)
    : list IndMatch * provider :=
  let '(ra, p1) := fetch w p pr.1 in
  let '(rb, p2) := fetch w p1 pr.2 in
  (match ra, rb with
   | Some a, Some b =>
       if decide (length b < 2)%nat then [] else match_regions X matcher a b
   | _, _ => []
   end, p2).

(** Modelled from the spec: one pair matched and its list stored under the
    canonical key (section 4.3). *)
Definition Match_step (w : World) (matcher : Matcher)
    (acc : PairWiseMatches * provider) (pr : Pair) : PairWiseMatches * provider :=
  let '(l, p') := Match_pair w matcher acc.2 pr in
  (<[canonical pr := l]> acc.1, p').

(** Modelled from the spec: [Matcher::Match] on the pairs of the set, one
    after the other (section 4.3; the pairs are independent of each other). *)
Definition Match_from (w : World) (matcher : Matcher) (p : provider)
    (pairs : Pair_Set) (map_PutativesMatches : PairWiseMatches)
    : PairWiseMatches * provider :=
  foldl (Match_step w matcher) (map_PutativesMatches, p) (elements pairs).

(** Modelled from the spec: [collectionMatcher->Match], as a call of [main]. *)
Definition Match (matcher : Matcher) (p : provider) (pairs : Pair_Set)
    (map_PutativesMatches : PairWiseMatches) : Run PairWiseMatches :=
  emit (Call_Match matcher pairs);;
  read (λ w, (Match_from w matcher p pairs map_PutativesMatches).1).

(** Line 162 and the three paths built from it (lines 169, 319 and 326). *)
Definition sMatchesDirectory (o : Options) : string :=
  folder_part X (sOutputFilename o).

Definition sImage_describer (o : Options) : string :=
  create_filespec_ext X (sMatchesDirectory o) "image_describer" "json".

Definition adjacency_path (o : Options) : string :=
  create_filespec_ext X (sMatchesDirectory o) "PutativeAdjacencyMatrix" "svg".

Definition graph_path (o : Options) : string :=
  create_filespec X (sMatchesDirectory o) "putative_matches".

(** Lines 211-225. *)
Definition vec_fileNames (sfm_data : SfM_Data) : list string :=
  (λ v, create_filespec X (s_root_path sfm_data) (s_Img_path v.2))
    <$> map_to_list (GetViews sfm_data).

(** Lines 230-315: the previous results, or the computed and saved ones. *)
Definition putative_matches (o : Options) (sfm_data : SfM_Data)
    (regions_type : Regions) (p : provider) : Run PairWiseMatches :=
  let map_PutativesMatches : PairWiseMatches := ∅ in
  exists_ ← (if bForce o then mret false else file_exists (sOutputFilename o));
  if (exists_ : bool) then
    loaded ← Load_matches (sOutputFilename o);
    require loaded Cannot_load_input_matches_file
  else
    matcher ← require (collectionMatcher (sNearestMatchingMethod o) regions_type (fDistRatio o))
                      (Invalid_Nearest_Neighbor_method (sNearestMatchingMethod o));
    loaded ← loadPairs (size (GetViews sfm_data)) (sPredefinedPairList o);
    pairs ← require loaded (Failed_to_load_pairs_from_file (sPredefinedPairList o));
    map_PutativesMatches ← Match matcher p pairs map_PutativesMatches;
    saved ← Save_matches map_PutativesMatches (sOutputFilename o);
    check saved (Cannot_save_computed_matches_in (sOutputFilename o));;
    mret map_PutativesMatches.

(** Lines 135-330: [main] once the command line has been read. *)
Definition main_with (o : Options) : Run unit :=
  check (negb (String.eqb (sPredefinedPairList o) EmptyString)) No_input_pairs_file_set;;
  check (negb (String.eqb (sOutputFilename o) EmptyString)) No_output_file_set;;
  loaded ← Load_SfM_Data (sSfM_Data_Filename o);
  sfm_data ← require loaded (SfM_Data_cannot_be_read (sSfM_Data_Filename o));
  described ← Init_region_type_from_file (sImage_describer o);
  regions_type ← require described (Invalid_regions_type_file (sImage_describer o));
  primed ← regions_provider_load (regions_provider (ui_max_cache_size o))
             sfm_data (sMatchesDirectory o) regions_type;
  p ← require primed Invalid_regions;
  map_PutativesMatches ← putative_matches o sfm_data regions_type p;
  PairWiseMatchingToAdjacencyMatrixSVG (length (vec_fileNames sfm_data))
    map_PutativesMatches (adjacency_path o);;
  exportToGraphvizData (graph_path o) (putativeGraph sfm_data map_PutativesMatches);;
  return_ EXIT_SUCCESS.

(** Lines 91-120: the handler of the thrown string [s] prints the usage, then
    [s], and returns [EXIT_FAILURE]. *)
Definition usage_failure {A} (thrown : ErrorMessage) : Run A :=
  emit (Cerr Usage);; emit (Cerr thrown);; return_ EXIT_FAILURE.

(** Lines 85-120: the command line. *)
Definition read_command_line (argv : list string) : Run Options :=
  if decide (length argv = 1%nat) then usage_failure Invalid_command_line_parameter
  else
    match cmd_process X argv initial_options with
    | Some o => mret o
    | None => usage_failure Thrown_by_cmd_process
    end.

Definition main_body (argv : list string) : Run unit :=
  o ← read_command_line argv;
  main_with o.

(** The exit status of a body and the machine it leaves. *)
Definition exit_status (body : Run unit) (s : Machine) : Z * Machine :=
  match body s with
  | (Next _, s') => (EXIT_SUCCESS, s')
  | (Return z, s') => (z, s')
  end.

Definition start (w : World) : Machine := {| world := w; trace := [] |}.

Definition main (argv : list string) (w : World) : Z * Machine :=
  exit_status (main_body argv) (start w).

(** [main] for a command line that [cmd.process] turned into [o]. *)
Definition run (o : Options) (w : World) : Z * Machine :=
  exit_status (main_with o) (start w).

(** *** Vocabulary for the statements *)

(** Everything [main] needs before it looks for previous results: both paths
    given, a readable scene, a readable regions type, and a provider that
    loads. *)
Definition prepared (o : Options) (w : World) (sfm_data : SfM_Data)
    (regions_type : Regions) (p : provider) : Prop :=
  sPredefinedPairList o ≠ EmptyString ∧
  sOutputFilename o ≠ EmptyString ∧
  sfm_data_files w !! sSfM_Data_Filename o = Some sfm_data ∧
  image_describer_files w !! sImage_describer o = Some regions_type ∧
  provider_load w (regions_provider (ui_max_cache_size o)) sfm_data
    (sMatchesDirectory o) regions_type = Some p.

(** The calls made on the way there. *)
Definition preparation (o : Options) : list Event :=
  [ Call_Load_SfM_Data (sSfM_Data_Filename o);
    Call_Init_region_type_from_file (sImage_describer o);
    Call_regions_provider_load (ui_max_cache_size o) (sMatchesDirectory o) ].

(** Lines 316-330: the two exports that precede the successful return. *)
Definition exports (o : Options) (sfm_data : SfM_Data)
    (map_PutativesMatches : PairWiseMatches) : list Event :=
  [ Call_PairWiseMatchingToAdjacencyMatrixSVG (size (GetViews sfm_data))
      map_PutativesMatches (adjacency_path o);
    Call_exportToGraphvizData (graph_path o) (putativeGraph sfm_data map_PutativesMatches) ].

Definition exported (o : Options) (sfm_data : SfM_Data)
    (map_PutativesMatches : PairWiseMatches) (w : World) : World :=
  export_diagnostic (graph_path o)
    (GraphvizData (putativeGraph sfm_data map_PutativesMatches))
    (export_diagnostic (adjacency_path o)
       (AdjacencyMatrixSVG (size (GetViews sfm_data)) map_PutativesMatches) w).

(** Lines 135-205 read off as a table: the trace of the failure that stops
    [main] before it looks for previous results, or what it has loaded. *)
Definition preparation_outcome (o : Options) (w : World)
    : list Event + SfM_Data * Regions * provider :=
  if String.eqb (sPredefinedPairList o) EmptyString then
    inl [Cerr No_input_pairs_file_set]
  else if String.eqb (sOutputFilename o) EmptyString then
    inl [Cerr No_output_file_set]
  else
    match sfm_data_files w !! sSfM_Data_Filename o with
    | None =>
        inl [Call_Load_SfM_Data (sSfM_Data_Filename o);
             Cerr (SfM_Data_cannot_be_read (sSfM_Data_Filename o))]
    | Some sfm_data =>
        match image_describer_files w !! sImage_describer o with
        | None =>
            inl [Call_Load_SfM_Data (sSfM_Data_Filename o);
                 Call_Init_region_type_from_file (sImage_describer o);
                 Cerr (Invalid_regions_type_file (sImage_describer o))]
        | Some regions_type =>
            match provider_load w (regions_provider (ui_max_cache_size o)) sfm_data
                    (sMatchesDirectory o) regions_type with
            | None => inl (preparation o ++ [Cerr Invalid_regions])%list
            | Some p => inr (sfm_data, regions_type, p)
            end
        end
    end.

(** The calls of a resumed run up to the exports. *)
Definition reload (o : Options) : list Event :=
  preparation o ++ [Call_file_exists (sOutputFilename o);
                    Call_Load_matches (sOutputFilename o)].

(** The calls of a recomputing run up to the allocation of the matcher. *)
Definition approach (o : Options) : list Event :=
  preparation o ++ (if bForce o then [] else [Call_file_exists (sOutputFilename o)]).

End Program.

(** Whether [main] takes the branch that reloads previous results (line 230). *)
Definition resumes (o : Options) (w : World) : Prop :=
  bForce o = false ∧ is_Some (matches_files w !! sOutputFilename o).

#[global] Instance resumes_dec o w : Decision (resumes o w).
Proof. unfold resumes. apply _. Defined.

Definition looked_for_output (o : Options) : list Event :=
  if bForce o then [] else [Call_file_exists (sOutputFilename o)].

Definition push (s : Machine) (l : list Event) : Machine :=
  {| world := world s; trace := trace s ++ l |}.

(** The engine stage: loading the pairs, matching them, saving the result. *)
Definition engine_event (e : Event) : bool :=
  match e with
  | Call_loadPairs _ _ | Call_Match _ _ | Call_Save _ _ => true
  | _ => false
  end.

Definition engine_skipped (tr : list Event) : Prop :=
  Forall (λ e, engine_event e = false) tr.

(** Any call to a collaborator, as opposed to a message on [std::cerr]. *)
Definition is_call (e : Event) : bool :=
  match e with
  | Cerr _ => false
  | _ => true
  end.

(** The method names [main] compares the selector with. *)
Definition method_names : list string :=
  [ "AUTO"; "BRUTEFORCEL2"; "BRUTEFORCEHAMMING"; "HNSWL2"; "ANNL2";
    "CASCADEHASHINGL2"; "FASTCASCADEHASHINGL2" ].

Definition with_method (method : string) (o : Options) : Options :=
  {| sSfM_Data_Filename := sSfM_Data_Filename o;
     sOutputFilename := sOutputFilename o;
     fDistRatio := fDistRatio o;
     sPredefinedPairList := sPredefinedPairList o;
     sNearestMatchingMethod := method;
     bForce := bForce o;
     ui_max_cache_size := ui_max_cache_size o |}.

Definition with_regions_files (rf : gmap (string * IndexT) RegionSet) (w : World) : World :=
  {| sfm_data_files := sfm_data_files w;
     image_describer_files := image_describer_files w;
     regions_files := rf;
     pair_files := pair_files w;
     matches_files := matches_files w;
     diagnostics := diagnostics w;
     read_only := read_only w |}.

(** The outcome "a fatal error before any work": a failing status, no call
    to any collaborator, the world as it was. *)
Definition fails_before_any_work (w : World) (r : Z * Machine) : Prop :=
  r.1 = EXIT_FAILURE ∧ Forall (λ e, is_call e = false) (trace r.2) ∧ world r.2 = w.

(** A method name that does not fit the regions type, after the usage text
    (lines 103-112): the L2 methods are for scalar descriptors, the Hamming
    method for binary ones. *)
Definition incompatible (method : string) (regions_type : Regions) : Prop :=
  (method = "BRUTEFORCEHAMMING" ∧ IsBinary regions_type = false) ∨
  (method ∈ ["BRUTEFORCEL2"; "HNSWL2"; "ANNL2"; "CASCADEHASHINGL2"; "FASTCASCADEHASHINGL2"]
   ∧ IsScalar regions_type = false).

(** The world with another set of paths that cannot be written. *)
Definition lock (paths : gset string) (w : World) : World :=
  {| sfm_data_files := sfm_data_files w;
     image_describer_files := image_describer_files w;
     regions_files := regions_files w;
     pair_files := pair_files w;
     matches_files := matches_files w;
     diagnostics := diagnostics w;
     read_only := paths |}.

Definition is_export (e : Event) : bool :=
  match e with
  | Call_PairWiseMatchingToAdjacencyMatrixSVG _ _ _ | Call_exportToGraphvizData _ _ => true
  | _ => false
  end.

(** The provider after a sequence of fetches. *)
Definition fetches (w : World) (p : provider) (ids : list IndexT) : provider :=
  foldl (λ q id, (fetch w q id).2) p ids.

(** An entry of a pair list that [loadPairs] accepts for [n] views. *)
Definition acceptable (n : N) (l : PairLine) : Prop :=
  match l with
  | PairOf i j => (i < n ∧ j < n)%N
  | Garbled _ => False
  end.

(** A view a bounded provider can deliver: known to it, with data on disk. *)
Definition deliverable (w : World) (dir : string) (known : gset IndexT) (id : IndexT) : Prop :=
  id ∈ known ∧ is_Some (regions_files w !! (dir, id)).

(** The [c] most recently used views of a sequence of uses (oldest use first),
    most recent first. *)
Definition most_recent (c : N) (used : list IndexT) : list IndexT :=
  take (N.to_nat c) (reverse (remove_dups used)).

(** What a bounded provider holds after the uses [ids]: the most recently used
    deliverable views, each with the data found on disk. *)
Definition holds_most_recent (w : World) (c : N) (dir : string) (known : gset IndexT)
    (ids : list IndexT) (q : provider) : Prop :=
  ∃ lru,
    q = Regions_Provider_Cache c dir known lru ∧
    lru.*1 = most_recent c (filter (deliverable w dir known) ids) ∧
    Forall (λ e, regions_files w !! (dir, e.1) = Some e.2) lru.

(** Two worlds that differ at most in the diagnostics left by earlier runs. *)
Definition same_inputs (w w' : World) : Prop :=
  w' = set_diagnostics (diagnostics w') w.

(** ** A small scene to run the program on *)

Module Demo.

Definition collaborators : Collaborators := {|
  cmd_process := λ argv o, Some o;
  folder_part := λ _, "m";
  create_filespec := λ d f, d +:+ "/" +:+ f;
  create_filespec_ext := λ d b e, d +:+ "/" +:+ b +:+ "." +:+ e;
  match_regions := λ _ a b, [{| i_ := 0%N; j_ := 0%N |}]
|}.

Definition view (i : IndexT) : View :=
  {| id_view := i; s_Img_path := "img"; ui_width := 4%N; ui_height := 3%N |}.

Definition scene : SfM_Data :=
  {| s_root_path := "root";
     views := {[ 0%N := view 0%N; 1%N := view 1%N; 2%N := view 2%N ]} |}.

Definition scalar : Regions := {| IsScalar := true; IsBinary := false |}.
Definition binary : Regions := {| IsScalar := false; IsBinary := true |}.

(** Three views; the third has a single descriptor.  No match file yet. *)
Definition fresh (regions_type : Regions) : World := {|
  sfm_data_files := {[ "sfm.json" := scene ]};
  image_describer_files := {[ "m/image_describer.json" := regions_type ]};
  regions_files := {[ ("m", 0%N) := [[1]; [2]]; ("m", 1%N) := [[1]; [3]];
                      ("m", 2%N) := [[4]] ]};
  pair_files := {[ "pairs.txt" := [PairOf 0%N 1%N; PairOf 2%N 1%N; PairOf 1%N 0%N];
                   "bad.txt" := [PairOf 0%N 1%N; PairOf 1%N 3%N] ]};
  matches_files := ∅;
  diagnostics := ∅;
  read_only := ∅
|}.

Definition stored : PairWiseMatches :=
  {[ (0%N, 1%N) := [{| i_ := 0%N; j_ := 0%N |}]; (1%N, 2%N) := [] ]}.

(** The same, with the result of a previous run in place. *)
Definition resumable : World :=
  set_matches_files {[ "m/matches.bin" := SerializedMatches stored ]} (fresh scalar).

Definition options (method : string) (force : bool) (cache : N) : Options := {|
  sSfM_Data_Filename := "sfm.json";
  sOutputFilename := "m/matches.bin";
  fDistRatio := Qmake 8 10;
  sPredefinedPairList := "pairs.txt";
  sNearestMatchingMethod := method;
  bForce := force;
  ui_max_cache_size := cache
|}.

(** What the unbounded provider holds once it has loaded [fresh]. *)
Definition loaded : provider :=
  Regions_Provider {[ 0%N := [[1]; [2]]; 1%N := [[1]; [3]]; 2%N := [[4]] ]}.

(** What the bounded provider holds after priming. *)
Definition primed (c : N) : provider :=
  Regions_Provider_Cache c "m" {[ 0%N; 1%N; 2%N ]} [].

(** [resumable] after the descriptors of view 2 have been lost. *)
Definition damaged : World :=
  with_regions_files {[ ("m", 0%N) := [[1]; [2]]; ("m", 1%N) := [[1]; [3]] ]} resumable.

Definition pairs : Pair_Set := {[ (0%N, 1%N); (1%N, 2%N) ]}.

End Demo.

(** ** The runs of [main], case by case *)

(** [with_force b o] is [o] with the force flag set to [b]. *)
Definition with_force (force : bool) (o : Options) : Options :=
  {| sSfM_Data_Filename := sSfM_Data_Filename o;
     sOutputFilename := sOutputFilename o;
     fDistRatio := fDistRatio o;
     sPredefinedPairList := sPredefinedPairList o;
     sNearestMatchingMethod := sNearestMatchingMethod o;
     bForce := force;
     ui_max_cache_size := ui_max_cache_size o |}.

(** The calls of a trace, the messages on [std::cerr] left out. *)
Definition calls (tr : list Event) : list Event := List.filter is_call tr.

(** The ratio a matcher was built with (the first argument of both
    constructors, lines 249-285). *)
Definition distRatio_of (m : Matcher) : Q :=
  match m with
  | Matcher_Regions r _ => r
  | Cascade_Hashing_Matcher_Regions r => r
  end.

(** Lines 296-307: the three calls of the engine stage. *)
Definition engine_calls (o : Options) (sfm_data : SfM_Data) (matcher : Matcher)
    (pairs : Pair_Set) (m : PairWiseMatches) : list Event :=
  [ Call_loadPairs (size (GetViews sfm_data)) (sPredefinedPairList o);
    Call_Match matcher pairs;
    Call_Save m (sOutputFilename o) ].

(** The world once [m] has been saved as the match file of [o]. *)
Definition saved (o : Options) (m : PairWiseMatches) (w : World) : World :=
  set_matches_files (<[sOutputFilename o := SerializedMatches m]> (matches_files w)) w.

(** The eleven ways through [main_with], one per [return] statement of lines
    135-330: the exit status, the world left and the trace of each. *)
Inductive outcome (X : Collaborators) (o : Options) (w : World) : Z * Machine → Prop :=
| no_pairs_file :
    sPredefinedPairList o = EmptyString →
    outcome X o w
      (EXIT_FAILURE, {| world := w; trace := [Cerr No_input_pairs_file_set] |})
| no_output_file :
    sPredefinedPairList o ≠ EmptyString →
    sOutputFilename o = EmptyString →
    outcome X o w
      (EXIT_FAILURE, {| world := w; trace := [Cerr No_output_file_set] |})
| scene_unreadable :
    sPredefinedPairList o ≠ EmptyString →
    sOutputFilename o ≠ EmptyString →
    sfm_data_files w !! sSfM_Data_Filename o = None →
    outcome X o w
      (EXIT_FAILURE,
       {| world := w;
          trace := [Call_Load_SfM_Data (sSfM_Data_Filename o);
                    Cerr (SfM_Data_cannot_be_read (sSfM_Data_Filename o))] |})
| regions_type_unreadable sfm_data :
    sPredefinedPairList o ≠ EmptyString →
    sOutputFilename o ≠ EmptyString →
    sfm_data_files w !! sSfM_Data_Filename o = Some sfm_data →
    image_describer_files w !! sImage_describer X o = None →
    outcome X o w
      (EXIT_FAILURE,
       {| world := w;
          trace := [Call_Load_SfM_Data (sSfM_Data_Filename o);
                    Call_Init_region_type_from_file (sImage_describer X o);
                    Cerr (Invalid_regions_type_file (sImage_describer X o))] |})
| regions_invalid sfm_data regions_type :
    sPredefinedPairList o ≠ EmptyString →
    sOutputFilename o ≠ EmptyString →
    sfm_data_files w !! sSfM_Data_Filename o = Some sfm_data →
    image_describer_files w !! sImage_describer X o = Some regions_type →
    provider_load w (regions_provider (ui_max_cache_size o)) sfm_data
      (sMatchesDirectory X o) regions_type = None →
    outcome X o w
      (EXIT_FAILURE,
       {| world := w; trace := preparation X o ++ [Cerr Invalid_regions] |})
| reloaded sfm_data regions_type p m :
    prepared X o w sfm_data regions_type p →
    resumes o w →
    matches_files w !! sOutputFilename o = Some (SerializedMatches m) →
    outcome X o w
      (EXIT_SUCCESS,
       {| world := exported X o sfm_data m w;
          trace := reload X o ++ exports X o sfm_data m |})
| reload_failed sfm_data regions_type p :
    prepared X o w sfm_data regions_type p →
    resumes o w →
    parse_matches (matches_files w !! sOutputFilename o) = None →
    outcome X o w
      (EXIT_FAILURE,
       {| world := w;
          trace := reload X o ++ [Cerr Cannot_load_input_matches_file] |})
| no_matcher sfm_data regions_type p :
    prepared X o w sfm_data regions_type p →
    ¬ resumes o w →
    collectionMatcher (sNearestMatchingMethod o) regions_type (fDistRatio o) = None →
    outcome X o w
      (EXIT_FAILURE,
       {| world := w;
          trace := approach X o ++
                   [Cerr (Invalid_Nearest_Neighbor_method (sNearestMatchingMethod o))] |})
| pairs_unreadable sfm_data regions_type p matcher e :
    prepared X o w sfm_data regions_type p →
    ¬ resumes o w →
    collectionMatcher (sNearestMatchingMethod o) regions_type (fDistRatio o) = Some matcher →
    loadPairs_from w (size (GetViews sfm_data)) (sPredefinedPairList o) = inl e →
    outcome X o w
      (EXIT_FAILURE,
       {| world := w;
          trace := approach X o ++
                   [Call_loadPairs (size (GetViews sfm_data)) (sPredefinedPairList o);
                    Cerr (Failed_to_load_pairs_from_file (sPredefinedPairList o))] |})
| save_failed sfm_data regions_type p matcher pairs :
    prepared X o w sfm_data regions_type p →
    ¬ resumes o w →
    collectionMatcher (sNearestMatchingMethod o) regions_type (fDistRatio o) = Some matcher →
    loadPairs_from w (size (GetViews sfm_data)) (sPredefinedPairList o) = inr pairs →
    sOutputFilename o ∈ read_only w →
    outcome X o w
      (EXIT_FAILURE,
       {| world := w;
          trace := approach X o ++
                   engine_calls o sfm_data matcher pairs
                     (Match_from X w matcher p pairs ∅).1 ++
                   [Cerr (Cannot_save_computed_matches_in (sOutputFilename o))] |})
| computed sfm_data regions_type p matcher pairs :
    prepared X o w sfm_data regions_type p →
    ¬ resumes o w →
    collectionMatcher (sNearestMatchingMethod o) regions_type (fDistRatio o) = Some matcher →
    loadPairs_from w (size (GetViews sfm_data)) (sPredefinedPairList o) = inr pairs →
    sOutputFilename o ∉ read_only w →
    let m := (Match_from X w matcher p pairs ∅).1 in
    outcome X o w
      (EXIT_SUCCESS,
       {| world := exported X o sfm_data m (saved o m w);
          trace := approach X o ++ engine_calls o sfm_data matcher pairs m ++
                   exports X o sfm_data m |}).

(** What a prepared run still needs in order to succeed: a match file that
    parses when it resumes; a matcher, a pair list that loads and a writable
    match file when it computes. *)
Definition completes (X : Collaborators) (o : Options) (w : World)
    (sfm_data : SfM_Data) (regions_type : Regions) : Prop :=
  if decide (resumes o w) then
    is_Some (parse_matches (matches_files w !! sOutputFilename o))
  else
    is_Some (collectionMatcher (sNearestMatchingMethod o) regions_type (fDistRatio o)) ∧
    (∃ pairs, loadPairs_from w (size (GetViews sfm_data)) (sPredefinedPairList o)
              = inr pairs) ∧
    sOutputFilename o ∉ read_only w.

(** The two complete sequences of calls: the one that reloads and the one that
    computes. *)
Definition resuming_sequence (X : Collaborators) (o : Options) (sfm_data : SfM_Data)
    (m : PairWiseMatches) : list Event :=
  reload X o ++ exports X o sfm_data m.

Definition computing_sequence (X : Collaborators) (o : Options) (sfm_data : SfM_Data)
    (matcher : Matcher) (pairs : Pair_Set) (m : PairWiseMatches) : list Event :=
  approach X o ++ engine_calls o sfm_data matcher pairs m ++ exports X o sfm_data m.

(** The calls that look at the match store before the engine stage. *)
Definition reads_store (e : Event) : bool :=
  match e with
  | Call_file_exists _ | Call_Load_matches _ => true
  | _ => false
  end.

Definition is_Match (e : Event) : bool :=
  match e with
  | Call_Match _ _ => true
  | _ => false
  end.

(** Further worlds over the demo scene. *)
Module Scenes.

(** The demo collaborators behind a command line that reads as [o]. *)
Definition reading (o : Options) : Collaborators := {|
  cmd_process := λ _ _, Some o;
  folder_part := folder_part Demo.collaborators;
  create_filespec := create_filespec Demo.collaborators;
  create_filespec_ext := create_filespec_ext Demo.collaborators;
  match_regions := match_regions Demo.collaborators
|}.

(** A regions type that is neither scalar nor binary. *)
Definition neither : Regions := {| IsScalar := false; IsBinary := false |}.

(** [fresh] with something at the path of the match file that is not a match
    file. *)
Definition spoiled : World :=
  set_matches_files {[ "m/matches.bin" := NotAMatchesFile "junk" ]}
    (Demo.fresh Demo.scalar).

End Scenes.

(** * Proofs *)

(** ** Stepping through the program *)

Ltac unfold_run :=
  unfold fail_with, require, check, Save_matches, Load_matches, file_exists,
    Load_SfM_Data, Init_region_type_from_file, regions_provider_load, loadPairs,
    PairWiseMatchingToAdjacencyMatrixSVG, exportToGraphvizData,
    emit, read, update, return_, mbind, mret, Run_bind, Run_ret in *.

Ltac run_steps := repeat (progress (unfold_run; cbn)).

Ltac same_trace := run_steps; rewrite <- ?app_assoc; reflexivity.

Section Stepping.

Context (X : Collaborators).

Lemma capacity_of_regions_provider (c : N) : capacity_of (regions_provider c) = c.
Proof.
  unfold regions_provider. destruct (N.eqb_spec c 0) as [->|]; reflexivity.
Qed.

Lemma length_vec_fileNames (sfm_data : SfM_Data) :
  length (vec_fileNames X sfm_data) = size (GetViews sfm_data).
Proof. unfold vec_fileNames. rewrite length_fmap. apply length_map_to_list. Qed.

Lemma eqb_empty_false (s : string) : s ≠ EmptyString → String.eqb s EmptyString = false.
Proof. intros H. by apply String.eqb_neq. Qed.

(** A prepared run is the rest of [main] started after the preparation. *)
Lemma run_prepared o w sfm_data regions_type p :
  prepared X o w sfm_data regions_type p →
  run X o w =
    match putative_matches X o sfm_data regions_type p
            {| world := w; trace := preparation X o |} with
    | (Next m, s) =>
        (EXIT_SUCCESS,
         {| world := exported X o sfm_data m (world s);
            trace := trace s ++ exports X o sfm_data m |})
    | (Return z, s) => (z, s)
    end.
Proof.
  intros (Hp & Ho & Hs & Hd & Hl).
  unfold run, exit_status, main_with, start.
  unfold_run. cbn.
  rewrite (eqb_empty_false _ Hp), (eqb_empty_false _ Ho). cbn.
  rewrite Hs. cbn. rewrite Hd. cbn. rewrite Hl. cbn.
  rewrite capacity_of_regions_provider.
  fold (preparation X o).
  destruct (putative_matches _ _ _ _ _ _) as [[m|z] s]; [|reflexivity].
  cbn. rewrite length_vec_fileNames.
  unfold exported, exports.
  by rewrite <- app_assoc.
Qed.

(** Lines 230-239. *)
Lemma putative_matches_resume o sfm_data regions_type p s :
  resumes o (world s) →
  putative_matches X o sfm_data regions_type p s =
    match parse_matches (matches_files (world s) !! sOutputFilename o) with
    | Some m =>
        (Next m, push s [Call_file_exists (sOutputFilename o);
                         Call_Load_matches (sOutputFilename o)])
    | None =>
        (Return EXIT_FAILURE,
         push s [Call_file_exists (sOutputFilename o);
                 Call_Load_matches (sOutputFilename o);
                 Cerr Cannot_load_input_matches_file])
    end.
Proof.
  intros [Hf He]. unfold putative_matches, push. rewrite Hf.
  unfold_run. cbn. rewrite (bool_decide_eq_true_2 _ He). cbn.
  destruct (parse_matches _); same_trace.
Qed.

(** Lines 240-315. *)
Lemma putative_matches_recompute o sfm_data regions_type p s :
  ¬ resumes o (world s) →
  putative_matches X o sfm_data regions_type p s =
    let s0 := push s (looked_for_output o) in
    let n := size (GetViews sfm_data) in
    match collectionMatcher (sNearestMatchingMethod o) regions_type (fDistRatio o) with
    | None =>
        (Return EXIT_FAILURE,
         push s0 [Cerr (Invalid_Nearest_Neighbor_method (sNearestMatchingMethod o))])
    | Some matcher =>
        match loadPairs_from (world s) n (sPredefinedPairList o) with
        | inl _ =>
            (Return EXIT_FAILURE,
             push s0 [Call_loadPairs n (sPredefinedPairList o);
                      Cerr (Failed_to_load_pairs_from_file (sPredefinedPairList o))])
        | inr pairs =>
            let m := (Match_from X (world s) matcher p pairs ∅).1 in
            let calls := [Call_loadPairs n (sPredefinedPairList o);
                          Call_Match matcher pairs;
                          Call_Save m (sOutputFilename o)] in
            if decide (sOutputFilename o ∈ read_only (world s)) then
              (Return EXIT_FAILURE,
               push s0 (calls ++ [Cerr (Cannot_save_computed_matches_in (sOutputFilename o))]))
            else
              (Next m,
               {| world := set_matches_files
                             (<[sOutputFilename o := SerializedMatches m]>
                                (matches_files (world s))) (world s);
                  trace := trace s0 ++ calls |})
        end
    end.
Proof.
  intros Hr. unfold putative_matches, push, looked_for_output, resumes in *.
  assert ((if bForce o then mret false else file_exists (sOutputFilename o)) s
          = (Next false, {| world := world s;
                            trace := trace s ++ (if bForce o then []
                                                 else [Call_file_exists (sOutputFilename o)]) |}))
    as Hex.
  { destruct (bForce o).
    - unfold_run. cbn. rewrite app_nil_r. by destruct s.
    - unfold_run. cbn. rewrite bool_decide_eq_false_2; [done|]. intros ?. by apply Hr. }
  unfold mbind at 1. unfold Run_bind at 1. rewrite Hex. cbn zeta.
  unfold Match. unfold_run. cbn.
  destruct (collectionMatcher _ _ _) as [matcher|]; cbn; [|same_trace].
  destruct (loadPairs_from _ _ _) as [e|pairs]; cbn; [same_trace|].
  destruct (decide _); same_trace.
Qed.

Lemma preparation_outcome_prepared o w sfm_data regions_type p :
  preparation_outcome X o w = inr (sfm_data, regions_type, p) ↔
  prepared X o w sfm_data regions_type p.
Proof.
  unfold preparation_outcome, prepared. split.
  - destruct (String.eqb_spec (sPredefinedPairList o) EmptyString); [done|].
    destruct (String.eqb_spec (sOutputFilename o) EmptyString); [done|].
    destruct (sfm_data_files w !! _) as [d|]; [|done].
    destruct (image_describer_files w !! _) as [r|]; [|done].
    destruct (provider_load _ _ _ _ _) as [q|] eqn:Hq; [|done].
    intros [= -> -> ->]. by rewrite Hq.
  - intros (Hp & Ho & -> & -> & ->).
    by rewrite (eqb_empty_false _ Hp), (eqb_empty_false _ Ho).
Qed.

(** A run that fails during the preparation leaves the world as it was. *)
Lemma run_unprepared o w tr :
  preparation_outcome X o w = inl tr →
  run X o w = (EXIT_FAILURE, {| world := w; trace := tr |}).
Proof.
  unfold preparation_outcome, run, exit_status, main_with, start.
  destruct (String.eqb_spec (sPredefinedPairList o) EmptyString).
  { intros [= <-]. same_trace. }
  destruct (String.eqb_spec (sOutputFilename o) EmptyString).
  { intros [= <-]. same_trace. }
  unfold_run. cbn.
  destruct (sfm_data_files w !! _) as [d|]; [|intros [= <-]; same_trace].
  cbn.
  destruct (image_describer_files w !! _) as [r|]; [|intros [= <-]; same_trace].
  cbn. rewrite capacity_of_regions_provider.
  destruct (provider_load _ _ _ _ _) as [q|]; [done|].
  intros [= <-]. same_trace.
Qed.

End Stepping.

(** ** The two branches of a prepared run *)

Section Branches.

Context (X : Collaborators).

Lemma export_diagnostic_matches_files f d w :
  matches_files (export_diagnostic f d w) = matches_files w.
Proof. unfold export_diagnostic. by destruct (decide _). Qed.

Lemma exported_matches_files o sfm_data m w :
  matches_files (exported X o sfm_data m w) = matches_files w.
Proof. unfold exported. by rewrite !export_diagnostic_matches_files. Qed.

Lemma run_resumed o w sfm_data regions_type p :
  prepared X o w sfm_data regions_type p →
  resumes o w →
  run X o w =
    match parse_matches (matches_files w !! sOutputFilename o) with
    | Some m =>
        (EXIT_SUCCESS,
         {| world := exported X o sfm_data m w;
            trace := reload X o ++ exports X o sfm_data m |})
    | None =>
        (EXIT_FAILURE,
         {| world := w; trace := reload X o ++ [Cerr Cannot_load_input_matches_file] |})
    end.
Proof.
  intros Hp Hr. rewrite (run_prepared X _ _ _ _ _ Hp).
  rewrite putative_matches_resume by done. cbn.
  destruct (parse_matches _); unfold reload; cbn; by rewrite <- ?app_assoc.
Qed.

Lemma run_recomputed o w sfm_data regions_type p :
  prepared X o w sfm_data regions_type p →
  ¬ resumes o w →
  run X o w =
    let n := size (GetViews sfm_data) in
    match collectionMatcher (sNearestMatchingMethod o) regions_type (fDistRatio o) with
    | None =>
        (EXIT_FAILURE,
         {| world := w;
            trace := approach X o ++
                     [Cerr (Invalid_Nearest_Neighbor_method (sNearestMatchingMethod o))] |})
    | Some matcher =>
        match loadPairs_from w n (sPredefinedPairList o) with
        | inl _ =>
            (EXIT_FAILURE,
             {| world := w;
                trace := approach X o ++
                         [Call_loadPairs n (sPredefinedPairList o);
                          Cerr (Failed_to_load_pairs_from_file (sPredefinedPairList o))] |})
        | inr pairs =>
            let m := (Match_from X w matcher p pairs ∅).1 in
            let calls := [Call_loadPairs n (sPredefinedPairList o);
                          Call_Match matcher pairs;
                          Call_Save m (sOutputFilename o)] in
            if decide (sOutputFilename o ∈ read_only w) then
              (EXIT_FAILURE,
               {| world := w;
                  trace := approach X o ++ calls ++
                           [Cerr (Cannot_save_computed_matches_in (sOutputFilename o))] |})
            else
              (EXIT_SUCCESS,
               {| world := exported X o sfm_data m
                             (set_matches_files
                                (<[sOutputFilename o := SerializedMatches m]>
                                   (matches_files w)) w);
                  trace := approach X o ++ calls ++ exports X o sfm_data m |})
        end
    end.
Proof.
  intros Hp Hr. rewrite (run_prepared X _ _ _ _ _ Hp).
  rewrite putative_matches_recompute by done. cbn zeta.
  unfold approach, push. cbn [world trace].
  destruct (collectionMatcher _ _ _) as [matcher|]; [|done].
  destruct (loadPairs_from _ _ _) as [e|pairs]; [done|].
  destruct (decide _); cbn [world trace]; [done|].
  by rewrite <- !app_assoc.
Qed.

(** What stops [main] during the preparation is not the engine. *)
Lemma preparation_outcome_engine_skipped o w tr :
  preparation_outcome X o w = inl tr → engine_skipped tr.
Proof.
  unfold preparation_outcome, engine_skipped.
  repeat case_match; intros [= <-]; repeat constructor.
Qed.

Lemma engine_skipped_app tr1 tr2 :
  engine_skipped tr1 → engine_skipped tr2 → engine_skipped (tr1 ++ tr2).
Proof. unfold engine_skipped. intros. by apply Forall_app. Qed.

Lemma engine_skipped_reload o : engine_skipped (reload X o).
Proof. unfold engine_skipped, reload, preparation. cbn. repeat constructor. Qed.

Lemma engine_skipped_exports o sfm_data m : engine_skipped (exports X o sfm_data m).
Proof. unfold engine_skipped, exports. repeat constructor. Qed.

(** Every run either stops during the preparation or is a prepared run. *)
Lemma run_preparation_cases o w :
  (∃ tr, preparation_outcome X o w = inl tr ∧
         run X o w = (EXIT_FAILURE, {| world := w; trace := tr |})) ∨
  (∃ sfm_data regions_type p, prepared X o w sfm_data regions_type p).
Proof.
  destruct (preparation_outcome X o w) as [tr|[[d r] p]] eqn:Hout.
  - left. exists tr. split; [done|]. by apply run_unprepared.
  - right. exists d, r, p. by apply preparation_outcome_prepared.
Qed.

(** With previous results in place and no forcing, the engine never runs and
    the match store is left alone, whatever else happens. *)
Lemma resumed_run_skips_engine o w :
  resumes o w →
  engine_skipped (trace (run X o w).2) ∧
  matches_files (world (run X o w).2) = matches_files w.
Proof.
  intros Hr.
  destruct (run_preparation_cases o w) as [(tr & Hout & ->)|(d & r & p & Hp)].
  - split; [|done]. by eapply preparation_outcome_engine_skipped.
  - rewrite (run_resumed _ _ _ _ _ Hp Hr).
    destruct (parse_matches _) as [m|]; cbn [fst snd world trace].
    + split; [|apply exported_matches_files].
      apply engine_skipped_app;
        [apply engine_skipped_reload|apply engine_skipped_exports].
    + split; [|done].
      apply engine_skipped_app; [apply engine_skipped_reload|].
      repeat constructor.
Qed.

(** [main] on a command line that [cmd.process] accepts is [run] on the
    options it produces; with no argument, or when [cmd.process] throws, it
    prints the usage and fails. *)
Lemma main_is_run argv o w :
  length argv ≠ 1%nat →
  cmd_process X argv initial_options = Some o →
  main X argv w = run X o w.
Proof.
  intros Hargc Hcmd. unfold main, run, main_body, read_command_line, exit_status.
  rewrite decide_False by done. rewrite Hcmd. reflexivity.
Qed.

Lemma main_usage argv w :
  length argv = 1%nat ∨ cmd_process X argv initial_options = None →
  ∃ thrown,
    main X argv w =
      (EXIT_FAILURE, {| world := w; trace := [Cerr Usage; Cerr thrown] |}).
Proof.
  intros Hbad. unfold main, main_body, read_command_line, exit_status.
  destruct (decide (length argv = 1%nat)); [by eexists|].
  destruct Hbad as [?|Hcmd]; [done|]. rewrite Hcmd. by eexists.
Qed.

End Branches.

(** ** Diagnostics left by earlier runs do not influence a run *)

Section Diagnostics.

Context (X : Collaborators).

Lemma same_inputs_export_diagnostic f d w : same_inputs w (export_diagnostic f d w).
Proof.
  unfold same_inputs, export_diagnostic.
  destruct (decide _); by destruct w.
Qed.

Lemma same_inputs_trans w1 w2 w3 :
  same_inputs w1 w2 → same_inputs w2 w3 → same_inputs w1 w3.
Proof. unfold same_inputs. intros -> ->. reflexivity. Qed.

Lemma same_inputs_exported o sfm_data m w : same_inputs w (exported X o sfm_data m w).
Proof.
  unfold exported.
  eapply same_inputs_trans; apply same_inputs_export_diagnostic.
Qed.

Lemma fetch_set_diagnostics d w p id : fetch (set_diagnostics d w) p id = fetch w p id.
Proof. reflexivity. Qed.

Lemma Match_step_set_diagnostics d w matcher acc pr :
  Match_step X (set_diagnostics d w) matcher acc pr = Match_step X w matcher acc pr.
Proof. reflexivity. Qed.

Lemma Match_from_set_diagnostics d w matcher p pairs m :
  Match_from X (set_diagnostics d w) matcher p pairs m = Match_from X w matcher p pairs m.
Proof.
  unfold Match_from. generalize (m, p). induction (elements pairs) as [|pr l IH]; intros acc.
  - reflexivity.
  - cbn [foldl]. rewrite Match_step_set_diagnostics. apply IH.
Qed.

Lemma run_same_inputs o w w' :
  same_inputs w w' →
  (run X o w').1 = (run X o w).1 ∧ trace (run X o w').2 = trace (run X o w).2.
Proof.
  unfold same_inputs. generalize (diagnostics w'). intros d ->.
  assert (preparation_outcome X o (set_diagnostics d w) = preparation_outcome X o w)
    as Hsame by reflexivity.
  destruct (run_preparation_cases X o w) as [(tr & Hout & ->)|(sd & r & p & Hp)].
  - rewrite <- Hsame in Hout. by rewrite (run_unprepared X _ _ _ Hout).
  - assert (prepared X o (set_diagnostics d w) sd r p) as Hp'.
    { apply preparation_outcome_prepared. rewrite Hsame.
      by apply preparation_outcome_prepared. }
    destruct (decide (resumes o w)) as [Hr|Hr].
    + rewrite (run_resumed X _ _ _ _ _ Hp Hr), (run_resumed X _ _ _ _ _ Hp' Hr).
      cbn [matches_files set_diagnostics].
      by destruct (parse_matches _).
    + rewrite (run_recomputed X _ _ _ _ _ Hp Hr), (run_recomputed X _ _ _ _ _ Hp' Hr).
      cbn zeta.
      change (loadPairs_from (set_diagnostics d w)) with (loadPairs_from w).
      cbn [read_only set_diagnostics].
      destruct (collectionMatcher _ _ _) as [matcher|]; [|done].
      destruct (loadPairs_from _ _ _) as [e|pairs]; [done|].
      rewrite Match_from_set_diagnostics.
      by destruct (decide _).
Qed.

End Diagnostics.

(** ** Resuming from a previous result *)

(** C1.  When a match file exists at the target path and recomputation is not
    forced, the engine stage (pair loading, matching, saving) is skipped and
    the match store is left as it was; if the inputs load and the file parses,
    the run succeeds and the stored result is the one handed to the exporters.
    A second run on the world left by the first behaves the same: same status,
    same calls, no engine call, the match store still untouched. *)
Theorem resume_adopts_existing_output (X : Collaborators) (o : Options) (w : World) :
  resumes o w →
  let first := run X o w in
  let second := run X o (world first.2) in
  (engine_skipped (trace first.2) ∧
   matches_files (world first.2) = matches_files w) ∧
  (∀ sfm_data regions_type p m,
     prepared X o w sfm_data regions_type p →
     matches_files w !! sOutputFilename o = Some (SerializedMatches m) →
     first = (EXIT_SUCCESS,
              {| world := exported X o sfm_data m w;
                 trace := reload X o ++ exports X o sfm_data m |})) ∧
  (second.1 = first.1 ∧
   trace second.2 = trace first.2 ∧
   engine_skipped (trace second.2) ∧
   matches_files (world second.2) = matches_files w).
Proof.
  intros Hr first second. subst first second.
  pose proof (resumed_run_skips_engine X o w Hr) as [Hskip Hstore].
  split; [done|]. split.
  - intros sd r p m Hp Hm.
    rewrite (run_resumed X _ _ _ _ _ Hp Hr), Hm. reflexivity.
  - assert (same_inputs w (world (run X o w).2)) as Hsame.
    { destruct (run_preparation_cases X o w) as [(tr & Hout & ->)|(sd & r & p & Hp)].
      - by destruct w.
      - rewrite (run_resumed X _ _ _ _ _ Hp Hr).
        destruct (parse_matches _); cbn [snd world].
        + apply same_inputs_exported.
        + by destruct w. }
    destruct (run_same_inputs X o _ _ Hsame) as [Hstatus Htrace].
    split; [done|]. split; [done|]. split; [by rewrite Htrace|].
    assert (resumes o (world (run X o w).2)) as Hr'.
    { destruct Hr as [Hf He]. split; [done|]. by rewrite Hstore. }
    destruct (resumed_run_skips_engine X o _ Hr') as [_ Hstore'].
    by rewrite Hstore'.
Qed.

Lemma demo_resumes method cache : resumes (Demo.options method false cache) Demo.resumable.
Proof. split; [reflexivity|]. by eexists. Qed.

Lemma demo_prepared_unbounded method force regions_type :
  prepared Demo.collaborators (Demo.options method force 0)
    (Demo.fresh regions_type) Demo.scene regions_type Demo.loaded.
Proof. repeat split; try done. Qed.

Lemma demo_resumable_prepared method force :
  prepared Demo.collaborators (Demo.options method force 0)
    Demo.resumable Demo.scene Demo.scalar Demo.loaded.
Proof. repeat split; try done. Qed.

Lemma resume_adopts_existing_output_witness :
  let o := Demo.options "AUTO" false 0 in
  let first := run Demo.collaborators o Demo.resumable in
  let second := run Demo.collaborators o (world first.2) in
  resumes o Demo.resumable ∧
  first.1 = EXIT_SUCCESS ∧
  engine_skipped (trace second.2) ∧
  matches_files (world second.2) = matches_files Demo.resumable.
Proof.
  intros o first second.
  pose proof (resume_adopts_existing_output Demo.collaborators o Demo.resumable
                (demo_resumes "AUTO" 0%N)) as (_ & Hfirst & _ & _ & Hskip & Hstore).
  split; [apply demo_resumes|].
  split; [|split; [exact Hskip|exact Hstore]].
  subst first.
  rewrite (Hfirst Demo.scene Demo.scalar Demo.loaded Demo.stored
             (demo_resumable_prepared "AUTO" false) eq_refl).
  reflexivity.
Defined.

(** ** The method selector *)

Ltac is_listed := repeat first [apply list_elem_of_here | apply list_elem_of_further].

Ltac not_listed :=
  let Hin := fresh "Hin" in
  intros Hin;
  repeat (apply elem_of_cons in Hin as [Hin|Hin]; [discriminate Hin|]);
  by apply elem_of_nil in Hin.

Lemma collectionMatcher_unrecognized method regions_type ratio :
  method ∉ method_names → collectionMatcher method regions_type ratio = None.
Proof.
  intros Hm. unfold collectionMatcher.
  repeat match goal with
  | |- context [String.eqb method ?s] =>
      destruct (String.eqb_spec method s) as [->|_];
        [exfalso; apply Hm; unfold method_names; is_listed|]
  end.
  reflexivity.
Qed.

Lemma collectionMatcher_explicit method regions_type regions_type' ratio :
  method ≠ "AUTO" →
  collectionMatcher method regions_type ratio = collectionMatcher method regions_type' ratio.
Proof.
  intros Hm. unfold collectionMatcher.
  destruct (String.eqb_spec method "AUTO"); done.
Qed.

Lemma collectionMatcher_recognized method regions_type ratio :
  method ∈ method_names → method ≠ "AUTO" →
  is_Some (collectionMatcher method regions_type ratio).
Proof.
  unfold method_names. intros Hin Hm.
  repeat (apply elem_of_cons in Hin as [->|Hin]; [try done; by eexists|]).
  by apply elem_of_nil in Hin.
Qed.

(** C9.  On a resumed run the method selector is not looked at: replacing it by
    any string whatsoever leaves the run unchanged, and the run succeeds as
    soon as the inputs load and the stored file parses. *)
Theorem resumed_run_ignores_selector (X : Collaborators) (o : Options) (w : World)
    (method : string) :
  resumes o w →
  run X (with_method method o) w = run X o w ∧
  (∀ sfm_data regions_type p m,
     prepared X o w sfm_data regions_type p →
     matches_files w !! sOutputFilename o = Some (SerializedMatches m) →
     (run X (with_method method o) w).1 = EXIT_SUCCESS).
Proof.
  intros Hr.
  assert (run X (with_method method o) w = run X o w) as Hsame.
  { assert (resumes (with_method method o) w) as Hr' by exact Hr.
    destruct (preparation_outcome X o w) as [tr|[[sd r] p]] eqn:Hout.
    - rewrite (run_unprepared X o w tr Hout).
      by rewrite (run_unprepared X (with_method method o) w tr Hout).
    - pose proof Hout as Hp. apply preparation_outcome_prepared in Hp.
      assert (prepared X (with_method method o) w sd r p) as Hp' by exact Hp.
      rewrite (run_resumed X _ _ _ _ _ Hp Hr), (run_resumed X _ _ _ _ _ Hp' Hr').
      reflexivity. }
  split; [done|].
  intros sd r p m Hp Hm. rewrite Hsame, (run_resumed X _ _ _ _ _ Hp Hr), Hm.
  reflexivity.
Qed.

Lemma resumed_run_ignores_selector_witness :
  let o := Demo.options "AUTO" false 0 in
  resumes o Demo.resumable ∧
  ("NO_SUCH_METHOD" ∉ method_names) ∧
  run Demo.collaborators (with_method "NO_SUCH_METHOD" o) Demo.resumable
    = run Demo.collaborators o Demo.resumable ∧
  incompatible "BRUTEFORCEHAMMING" Demo.scalar ∧
  (run Demo.collaborators (with_method "BRUTEFORCEHAMMING" o) Demo.resumable).1
    = EXIT_SUCCESS.
Proof.
  intros o.
  split; [apply demo_resumes|].
  split; [unfold method_names; not_listed|].
  split.
  - apply (resumed_run_ignores_selector Demo.collaborators o Demo.resumable
             "NO_SUCH_METHOD" (demo_resumes "AUTO" 0%N)).
  - split; [by left|].
    apply (resumed_run_ignores_selector Demo.collaborators o Demo.resumable
             "BRUTEFORCEHAMMING" (demo_resumes "AUTO" 0%N))
      with (sfm_data := Demo.scene) (regions_type := Demo.scalar) (p := Demo.loaded)
           (m := Demo.stored).
    + apply demo_resumable_prepared.
    + reflexivity.
Defined.

(** C2, as the code has it.  An unrecognized selector never lets the engine
    run and never touches the match store.  It is reported only when a prepared
    run reaches the recompute branch: the scene, the regions type and the
    regions have been loaded by then, and the run stops there with
    [EXIT_FAILURE], before the pair list is read.  A recognized explicit
    selector is accepted whatever the regions type is. *)
Theorem unrecognized_selector_stops_recompute (X : Collaborators) (o : Options) (w : World) :
  sNearestMatchingMethod o ∉ method_names →
  (engine_skipped (trace (run X o w).2) ∧
   matches_files (world (run X o w).2) = matches_files w) ∧
  (∀ sfm_data regions_type p,
     prepared X o w sfm_data regions_type p →
     ¬ resumes o w →
     run X o w =
       (EXIT_FAILURE,
        {| world := w;
           trace := approach X o ++
                    [Cerr (Invalid_Nearest_Neighbor_method (sNearestMatchingMethod o))] |})) ∧
  (∀ method regions_type regions_type' ratio,
     method ∈ method_names → method ≠ "AUTO" →
     is_Some (collectionMatcher method regions_type ratio) ∧
     collectionMatcher method regions_type ratio
       = collectionMatcher method regions_type' ratio).
Proof.
  intros Hm.
  assert (∀ sd r p, prepared X o w sd r p → ¬ resumes o w →
            run X o w =
              (EXIT_FAILURE,
               {| world := w;
                  trace := approach X o ++
                           [Cerr (Invalid_Nearest_Neighbor_method
                                    (sNearestMatchingMethod o))] |})) as Hstop.
  { intros sd r p Hp Hr. rewrite (run_recomputed X _ _ _ _ _ Hp Hr).
    cbn zeta. by rewrite (collectionMatcher_unrecognized _ _ _ Hm). }
  split; [|split; [exact Hstop|]].
  - destruct (decide (resumes o w)) as [Hr|Hr].
    { by apply resumed_run_skips_engine. }
    destruct (run_preparation_cases X o w) as [(tr & Hout & ->)|(sd & r & p & Hp)].
    + split; [|done]. by eapply preparation_outcome_engine_skipped.
    + rewrite (Hstop _ _ _ Hp Hr). split; [|done]. cbn [snd trace].
      unfold engine_skipped, approach, preparation.
      destruct (bForce o); repeat constructor.
  - intros method r r' ratio Hin Hne. split.
    + by apply collectionMatcher_recognized.
    + by apply collectionMatcher_explicit.
Qed.

Lemma unrecognized_selector_stops_recompute_witness :
  let o := Demo.options "NO_SUCH_METHOD" false 0 in
  let w := Demo.fresh Demo.scalar in
  (sNearestMatchingMethod o ∉ method_names) ∧
  run Demo.collaborators o w =
    (EXIT_FAILURE,
     {| world := w;
        trace := approach Demo.collaborators o ++
                 [Cerr (Invalid_Nearest_Neighbor_method "NO_SUCH_METHOD")] |}).
Proof.
  intros o w.
  assert (sNearestMatchingMethod o ∉ method_names) as Hm
    by (unfold method_names; not_listed).
  split; [exact Hm|].
  apply (unrecognized_selector_stops_recompute Demo.collaborators o w Hm)
    with (sfm_data := Demo.scene) (regions_type := Demo.scalar) (p := Demo.loaded).
  - apply demo_prepared_unbounded.
  - intros [_ [f Hf]]. discriminate Hf.
Defined.

(** C2 as stated fails on the code: with an unrecognized selector the scene and
    the regions are loaded before the failure is reported, and with a selector
    that does not fit the regions type the run does not fail at all. *)
Lemma selector_is_not_checked_before_any_work :
  let w := Demo.fresh Demo.scalar in
  ("NO_SUCH_METHOD" ∉ method_names) ∧
  ¬ fails_before_any_work w
      (run Demo.collaborators (Demo.options "NO_SUCH_METHOD" false 0) w) ∧
  incompatible "BRUTEFORCEHAMMING" Demo.scalar ∧
  ¬ fails_before_any_work w
      (run Demo.collaborators (Demo.options "BRUTEFORCEHAMMING" false 0) w).
Proof.
  intros w. split; [unfold method_names; not_listed|].
  split; [|split; [by left|]].
  - intros (_ & Hcalls & _).
    apply Forall_inv in Hcalls. discriminate Hcalls.
  - intros (Hstatus & _). discriminate Hstatus.
Qed.

(** C3.  With the selector AUTO, [main] allocates the cascade hashing matcher
    (precomputed hashed regions) when the regions type is scalar, and the
    brute force Hamming matcher when it is binary and not scalar; in a
    prepared, recomputing run whose pair list loads, that matcher is the one
    [Match] is called on. *)
Theorem auto_selects_by_regions_type (X : Collaborators) (o : Options) (w : World)
    (sfm_data : SfM_Data) (regions_type : Regions) (p : provider) (pairs : Pair_Set) :
  sNearestMatchingMethod o = "AUTO" →
  prepared X o w sfm_data regions_type p →
  ¬ resumes o w →
  loadPairs_from w (size (GetViews sfm_data)) (sPredefinedPairList o) = inr pairs →
  (IsScalar regions_type = true →
   collectionMatcher "AUTO" regions_type (fDistRatio o)
     = Some (Cascade_Hashing_Matcher_Regions (fDistRatio o)) ∧
   Call_Match (Cascade_Hashing_Matcher_Regions (fDistRatio o)) pairs
     ∈ trace (run X o w).2) ∧
  (IsScalar regions_type = false → IsBinary regions_type = true →
   collectionMatcher "AUTO" regions_type (fDistRatio o)
     = Some (Matcher_Regions (fDistRatio o) BRUTE_FORCE_HAMMING) ∧
   Call_Match (Matcher_Regions (fDistRatio o) BRUTE_FORCE_HAMMING) pairs
     ∈ trace (run X o w).2).
Proof.
  intros Hauto Hp Hr Hpairs.
  assert (∀ matcher,
            collectionMatcher "AUTO" regions_type (fDistRatio o) = Some matcher →
            Call_Match matcher pairs ∈ trace (run X o w).2) as Hcall.
  { intros matcher Hm. rewrite (run_recomputed X _ _ _ _ _ Hp Hr).
    cbn zeta. rewrite Hauto, Hm, Hpairs.
    destruct (decide _); cbn [snd trace];
      apply elem_of_app; right; apply elem_of_app; left; is_listed. }
  split.
  - intros Hs.
    assert (collectionMatcher "AUTO" regions_type (fDistRatio o)
            = Some (Cascade_Hashing_Matcher_Regions (fDistRatio o))) as Hm.
    { unfold collectionMatcher. cbn. by rewrite Hs. }
    split; [exact Hm|by apply Hcall].
  - intros Hs Hb.
    assert (collectionMatcher "AUTO" regions_type (fDistRatio o)
            = Some (Matcher_Regions (fDistRatio o) BRUTE_FORCE_HAMMING)) as Hm.
    { unfold collectionMatcher. cbn. by rewrite Hs, Hb. }
    split; [exact Hm|by apply Hcall].
Qed.

Lemma demo_not_resumes method force cache regions_type :
  ¬ resumes (Demo.options method force cache) (Demo.fresh regions_type).
Proof. intros [_ [f Hf]]. discriminate Hf. Qed.

Lemma demo_pairs regions_type :
  loadPairs_from (Demo.fresh regions_type) (size (GetViews Demo.scene)) "pairs.txt"
  = inr Demo.pairs.
Proof. vm_compute. reflexivity. Qed.

Lemma auto_selects_by_regions_type_witness :
  let o := Demo.options "AUTO" false 0 in
  Call_Match (Cascade_Hashing_Matcher_Regions (fDistRatio o)) Demo.pairs
    ∈ trace (run Demo.collaborators o (Demo.fresh Demo.scalar)).2 ∧
  Call_Match (Matcher_Regions (fDistRatio o) BRUTE_FORCE_HAMMING) Demo.pairs
    ∈ trace (run Demo.collaborators o (Demo.fresh Demo.binary)).2.
Proof.
  intros o. split.
  - apply (auto_selects_by_regions_type Demo.collaborators o (Demo.fresh Demo.scalar)
             Demo.scene Demo.scalar Demo.loaded Demo.pairs eq_refl
             (demo_prepared_unbounded "AUTO" false Demo.scalar)
             (demo_not_resumes "AUTO" false 0%N Demo.scalar)
             (demo_pairs Demo.scalar)).
    reflexivity.
  - apply (auto_selects_by_regions_type Demo.collaborators o (Demo.fresh Demo.binary)
             Demo.scene Demo.binary Demo.loaded Demo.pairs eq_refl
             (demo_prepared_unbounded "AUTO" false Demo.binary)
             (demo_not_resumes "AUTO" false 0%N Demo.binary)
             (demo_pairs Demo.binary)); reflexivity.
Defined.

(** ** Saving and exporting *)

Section Saving.

Context (X : Collaborators).

Lemma Match_from_lock ro w matcher p pairs m :
  Match_from X (lock ro w) matcher p pairs m = Match_from X w matcher p pairs m.
Proof.
  unfold Match_from. generalize (m, p). induction (elements pairs) as [|pr l IH]; intros acc.
  - reflexivity.
  - cbn [foldl]. change (Match_step X (lock ro w)) with (Match_step X w). apply IH.
Qed.

Lemma export_diagnostic_locked f d w :
  f ∈ read_only w → export_diagnostic f d w = w.
Proof. intros Hf. unfold export_diagnostic. by rewrite decide_True. Qed.

Lemma export_diagnostic_read_only f d w :
  read_only (export_diagnostic f d w) = read_only w.
Proof. unfold export_diagnostic. by destruct (decide _). Qed.

(** A target that cannot be written keeps what it held. *)
Lemma export_diagnostic_keeps f g d w :
  g ∈ read_only w →
  diagnostics (export_diagnostic f d w) !! g = diagnostics w !! g.
Proof.
  intros Hg. unfold export_diagnostic. destruct (decide _) as [|Hf]; [done|].
  cbn. apply lookup_insert_ne. by intros ->.
Qed.

Lemma exported_keeps o sfm_data m g w :
  g ∈ read_only w →
  diagnostics (exported X o sfm_data m w) !! g = diagnostics w !! g.
Proof.
  intros Hg. unfold exported.
  rewrite export_diagnostic_keeps by by rewrite export_diagnostic_read_only.
  by apply export_diagnostic_keeps.
Qed.

(** Locking or unlocking targets other than the match file changes neither the
    status of a run nor the match store it leaves. *)
Lemma run_lock o w ro :
  (sOutputFilename o ∈ ro ↔ sOutputFilename o ∈ read_only w) →
  (run X o (lock ro w)).1 = (run X o w).1 ∧
  matches_files (world (run X o (lock ro w)).2) = matches_files (world (run X o w).2).
Proof.
  intros Hro.
  assert (preparation_outcome X o (lock ro w) = preparation_outcome X o w)
    as Hsame by reflexivity.
  destruct (run_preparation_cases X o w) as [(tr & Hout & ->)|(sd & r & p & Hp)].
  - rewrite <- Hsame in Hout. by rewrite (run_unprepared X _ _ _ Hout).
  - assert (prepared X o (lock ro w) sd r p) as Hp' by exact Hp.
    destruct (decide (resumes o w)) as [Hr|Hr].
    + rewrite (run_resumed X _ _ _ _ _ Hp Hr), (run_resumed X _ _ _ _ _ Hp' Hr).
      cbn [matches_files lock].
      destruct (parse_matches _); cbn [fst snd world]; [|done].
      by rewrite !exported_matches_files.
    + rewrite (run_recomputed X _ _ _ _ _ Hp Hr), (run_recomputed X _ _ _ _ _ Hp' Hr).
      cbn zeta.
      change (loadPairs_from (lock ro w)) with (loadPairs_from w).
      cbn [read_only matches_files lock].
      destruct (collectionMatcher _ _ _) as [matcher|]; [|done].
      destruct (loadPairs_from _ _ _) as [e|pairs]; [done|].
      rewrite Match_from_lock.
      destruct (decide (_ ∈ ro)) as [Hin|Hin], (decide (_ ∈ read_only w)) as [Hin'|Hin'];
        try tauto; cbn [fst snd world]; by rewrite ?exported_matches_files.
Qed.

End Saving.

(** C6.  In a prepared, recomputing run whose matcher is allocated and whose
    pair list loads: if the match file cannot be saved the run returns
    [EXIT_FAILURE], writes nothing and exports nothing; if it can be saved the
    run returns [EXIT_SUCCESS] with the result persisted, also when a
    diagnostic target cannot be written (that target then keeps what it held).
    In any run, locking or unlocking the diagnostic targets changes neither the
    exit status nor the match store. *)
Theorem save_failure_is_fatal_export_failure_is_not (X : Collaborators) (o : Options)
    (w : World) (sfm_data : SfM_Data) (regions_type : Regions) (p : provider)
    (matcher : Matcher) (pairs : Pair_Set) :
  prepared X o w sfm_data regions_type p →
  ¬ resumes o w →
  collectionMatcher (sNearestMatchingMethod o) regions_type (fDistRatio o) = Some matcher →
  loadPairs_from w (size (GetViews sfm_data)) (sPredefinedPairList o) = inr pairs →
  let m := (Match_from X w matcher p pairs ∅).1 in
  let r := run X o w in
  (sOutputFilename o ∈ read_only w →
   r.1 = EXIT_FAILURE ∧ world r.2 = w ∧
   Forall (λ e, is_export e = false) (trace r.2) ∧
   Cerr (Cannot_save_computed_matches_in (sOutputFilename o)) ∈ trace r.2) ∧
  (sOutputFilename o ∉ read_only w →
   r.1 = EXIT_SUCCESS ∧
   matches_files (world r.2) !! sOutputFilename o = Some (SerializedMatches m) ∧
   (∀ g, g ∈ read_only w → diagnostics (world r.2) !! g = diagnostics w !! g)) ∧
  (∀ ro, (sOutputFilename o ∈ ro ↔ sOutputFilename o ∈ read_only w) →
   (run X o (lock ro w)).1 = r.1 ∧
   matches_files (world (run X o (lock ro w)).2) = matches_files (world r.2)).
Proof.
  intros Hp Hr Hm Hpairs m r. subst r.
  split; [|split].
  - intros Hro. rewrite (run_recomputed X _ _ _ _ _ Hp Hr). cbn zeta.
    rewrite Hm, Hpairs, decide_True by done. cbn [fst snd world trace].
    split; [done|]. split; [done|]. split.
    + unfold approach, preparation. destruct (bForce o); repeat constructor.
    + apply elem_of_app; right. is_listed.
  - intros Hro. rewrite (run_recomputed X _ _ _ _ _ Hp Hr). cbn zeta.
    rewrite Hm, Hpairs, decide_False by done. cbn [fst snd world trace].
    split; [done|]. split.
    + rewrite exported_matches_files. cbn. apply lookup_insert_eq.
    + intros g Hg. by rewrite exported_keeps.
  - intros ro Hro. by apply run_lock.
Qed.

Lemma save_failure_is_fatal_export_failure_is_not_witness :
  let o := Demo.options "AUTO" false 0 in
  let no_output := lock {[ sOutputFilename o ]} (Demo.fresh Demo.scalar) in
  let no_diagnostics :=
    lock {[ adjacency_path Demo.collaborators o; graph_path Demo.collaborators o ]}
      (Demo.fresh Demo.scalar) in
  (run Demo.collaborators o no_output).1 = EXIT_FAILURE ∧
  (run Demo.collaborators o no_diagnostics).1 = EXIT_SUCCESS ∧
  diagnostics (world (run Demo.collaborators o no_diagnostics).2) = ∅ ∧
  is_Some (matches_files (world (run Demo.collaborators o no_diagnostics).2)
             !! sOutputFilename o).
Proof.
  intros o no_output no_diagnostics.
  pose proof (save_failure_is_fatal_export_failure_is_not Demo.collaborators o no_output
                Demo.scene Demo.scalar Demo.loaded
                (Cascade_Hashing_Matcher_Regions (fDistRatio o)) Demo.pairs) as Hlocked.
  pose proof (save_failure_is_fatal_export_failure_is_not Demo.collaborators o no_diagnostics
                Demo.scene Demo.scalar Demo.loaded
                (Cascade_Hashing_Matcher_Regions (fDistRatio o)) Demo.pairs) as Hbest.
  destruct Hlocked as [Hfail _].
  { repeat split; done. }
  { intros [_ [f Hf]]. discriminate Hf. }
  { reflexivity. }
  { vm_compute. reflexivity. }
  destruct Hbest as (_ & Hok & _).
  { repeat split; done. }
  { intros [_ [f Hf]]. discriminate Hf. }
  { reflexivity. }
  { vm_compute. reflexivity. }
  destruct Hfail as [Hstatus _].
  { subst no_output. vm_compute. reflexivity. }
  destruct Hok as (Hsuccess & Hstored & _).
  { subst no_diagnostics. vm_compute. intros Hin. discriminate Hin. }
  split; [exact Hstatus|]. split; [exact Hsuccess|].
  split; [vm_compute; reflexivity|].
  eexists. exact Hstored.
Defined.

(** ** The regions provider *)

Lemma regions_provider_unbounded : regions_provider 0 = Regions_Provider ∅.
Proof. reflexivity. Qed.

Lemma regions_provider_bounded (c : N) :
  c ≠ 0%N → regions_provider c = Regions_Provider_Cache c EmptyString ∅ [].
Proof. intros Hc. unfold regions_provider. by destruct (N.eqb_spec c 0). Qed.

(** What the unbounded provider holds after a successful load: the data of
    every view of the scene, as found on disk. *)
Lemma provider_load_unbounded w cache sfm_data dir regions_type p :
  provider_load w (Regions_Provider cache) sfm_data dir regions_type = Some p →
  ∃ loaded, p = Regions_Provider loaded ∧
            dom loaded = dom (GetViews sfm_data) ∧
            ∀ id, id ∈ dom (GetViews sfm_data) →
                  is_Some (loaded !! id) ∧ loaded !! id = regions_files w !! (dir, id).
Proof.
  cbn. destruct (decide _) as [Hdom|]; [|done]. intros [= <-].
  eexists. split; [done|]. split; [done|].
  intros id Hid. rewrite <- Hdom in Hid. apply elem_of_dom in Hid as [r Hr].
  split; [by eexists|].
  rewrite Hr. rewrite map_lookup_imap in Hr.
  destruct (GetViews sfm_data !! id); [done|discriminate Hr].
Qed.

(** The unbounded provider does not load when the data of a view is missing. *)
Lemma provider_load_unbounded_missing w cache sfm_data dir regions_type id :
  id ∈ dom (GetViews sfm_data) →
  regions_files w !! (dir, id) = None →
  provider_load w (Regions_Provider cache) sfm_data dir regions_type = None.
Proof.
  intros Hid Hnone.
  destruct (provider_load _ _ _ _ _) as [p|] eqn:Hload; [|done].
  apply provider_load_unbounded in Hload as (loaded & _ & _ & Hall).
  destruct (Hall id Hid) as [[r Hr] Heq]. congruence.
Qed.

(** C10.  The regions type and the regions are loaded before [main] looks for
    previous results.  So a run that would resume still returns [EXIT_FAILURE],
    with the world untouched, when the regions type file is missing or the
    provider does not load, in particular when the unbounded provider misses
    the data of one view.  When the provider does load, the resumed run does
    not depend on the region data: with other region files, as long as the
    provider loads, the status and the calls (hence the result handed to the
    exporters) are the same. *)
Theorem regions_are_loaded_before_resuming (X : Collaborators) (o : Options) (w : World)
    (sfm_data : SfM_Data) :
  resumes o w →
  sPredefinedPairList o ≠ EmptyString →
  sOutputFilename o ≠ EmptyString →
  sfm_data_files w !! sSfM_Data_Filename o = Some sfm_data →
  (image_describer_files w !! sImage_describer X o = None →
   run X o w =
     (EXIT_FAILURE,
      {| world := w;
         trace := [Call_Load_SfM_Data (sSfM_Data_Filename o);
                   Call_Init_region_type_from_file (sImage_describer X o);
                   Cerr (Invalid_regions_type_file (sImage_describer X o))] |})) ∧
  (∀ regions_type,
     image_describer_files w !! sImage_describer X o = Some regions_type →
     provider_load w (regions_provider (ui_max_cache_size o)) sfm_data
       (sMatchesDirectory X o) regions_type = None →
     run X o w =
       (EXIT_FAILURE,
        {| world := w; trace := preparation X o ++ [Cerr Invalid_regions] |})) ∧
  (∀ regions_type id,
     image_describer_files w !! sImage_describer X o = Some regions_type →
     ui_max_cache_size o = 0%N →
     id ∈ dom (GetViews sfm_data) →
     regions_files w !! (sMatchesDirectory X o, id) = None →
     (run X o w).1 = EXIT_FAILURE) ∧
  (∀ regions_type p rf p',
     prepared X o w sfm_data regions_type p →
     prepared X o (with_regions_files rf w) sfm_data regions_type p' →
     (run X o (with_regions_files rf w)).1 = (run X o w).1 ∧
     trace (run X o (with_regions_files rf w)).2 = trace (run X o w).2).
Proof.
  intros Hr Hpairs Hout Hscene.
  assert (∀ regions_type,
            image_describer_files w !! sImage_describer X o = Some regions_type →
            provider_load w (regions_provider (ui_max_cache_size o)) sfm_data
              (sMatchesDirectory X o) regions_type = None →
            run X o w =
              (EXIT_FAILURE,
               {| world := w; trace := preparation X o ++ [Cerr Invalid_regions] |}))
    as Hinvalid.
  { intros r Hd Hl. apply run_unprepared. unfold preparation_outcome.
    by rewrite (eqb_empty_false _ Hpairs), (eqb_empty_false _ Hout), Hscene, Hd, Hl. }
  split; [|split; [exact Hinvalid|split]].
  - intros Hd. apply run_unprepared. unfold preparation_outcome.
    by rewrite (eqb_empty_false _ Hpairs), (eqb_empty_false _ Hout), Hscene, Hd.
  - intros r id Hd Hc Hid Hnone. rewrite (Hinvalid r Hd); [done|].
    rewrite Hc, regions_provider_unbounded.
    by eapply provider_load_unbounded_missing.
  - intros r p rf p' Hp Hp'.
    assert (resumes o (with_regions_files rf w)) as Hr' by exact Hr.
    rewrite (run_resumed X _ _ _ _ _ Hp Hr), (run_resumed X _ _ _ _ _ Hp' Hr').
    cbn [matches_files with_regions_files].
    by destruct (parse_matches _).
Qed.

Lemma regions_are_loaded_before_resuming_witness :
  let o := Demo.options "AUTO" false 0 in
  resumes o Demo.damaged ∧
  (run Demo.collaborators o Demo.damaged).1 = EXIT_FAILURE ∧
  (run Demo.collaborators o Demo.resumable).1 = EXIT_SUCCESS.
Proof.
  intros o.
  assert (resumes o Demo.damaged) as Hr by (split; [reflexivity|by eexists]).
  assert (sPredefinedPairList o ≠ EmptyString) as Hpairs by discriminate.
  assert (sOutputFilename o ≠ EmptyString) as Hout by discriminate.
  assert (2%N ∈ dom (GetViews Demo.scene)) as Hview by (vm_compute; reflexivity).
  destruct (regions_are_loaded_before_resuming Demo.collaborators o Demo.damaged
              Demo.scene Hr Hpairs Hout eq_refl) as (_ & _ & Hmissing & _).
  split; [exact Hr|]. split; [|reflexivity].
  exact (Hmissing Demo.scalar 2%N eq_refl eq_refl Hview eq_refl).
Defined.

(** ** The match graph *)

Lemma set_ViewIds_dom (sfm_data : SfM_Data) :
  set_ViewIds sfm_data = dom (GetViews sfm_data).
Proof. unfold set_ViewIds. symmetry. apply leibniz_equiv, dom_alt. Qed.

(** Counting the keys that hold matches, on the map or on its list of
    entries, gives the same number. *)
Lemma size_filter_has_matches (m : PairWiseMatches) :
  size (filter has_matches m) = length (filter has_matches (map_to_list m)).
Proof.
  rewrite <- length_map_to_list. apply Permutation_length, NoDup_Permutation.
  - apply NoDup_map_to_list.
  - apply NoDup_filter, NoDup_map_to_list.
  - intros [k v]. rewrite elem_of_map_to_list, map_lookup_filter_Some.
    rewrite list_elem_of_filter, elem_of_map_to_list. tauto.
Qed.

Lemma putativeGraph_complete (sfm_data : SfM_Data) (m : PairWiseMatches) :
  let g := putativeGraph sfm_data m in
  graph_nodes g = dom (GetViews sfm_data) ∧
  size (graph_nodes g) = size (GetViews sfm_data) ∧
  size (graph_edges g) = length (filter has_matches (map_to_list m)).
Proof.
  cbn. rewrite set_ViewIds_dom. split; [done|]. split.
  - apply size_dom.
  - unfold getPairs. rewrite size_dom. apply size_filter_has_matches.
Qed.

Lemma preparation_outcome_no_export (X : Collaborators) o w tr :
  preparation_outcome X o w = inl tr → Forall (λ e, is_export e = false) tr.
Proof.
  unfold preparation_outcome.
  repeat case_match; intros [= <-]; repeat constructor.
Qed.

Lemma approach_no_export (X : Collaborators) o :
  Forall (λ e, is_export e = false) (approach X o).
Proof. unfold approach, preparation. destruct (bForce o); repeat constructor. Qed.

Lemma reload_no_export (X : Collaborators) o :
  Forall (λ e, is_export e = false) (reload X o).
Proof. unfold reload, preparation. repeat constructor. Qed.

Lemma not_export_in (tr : list Event) f g :
  Call_exportToGraphvizData f g ∈ tr → Forall (λ e, is_export e = false) tr → False.
Proof.
  intros Hin Hall. rewrite Forall_forall in Hall.
  specialize (Hall _ Hin). discriminate Hall.
Qed.

Ltac no_export Hin := exfalso; eapply not_export_in; [exact Hin|].

Lemma parse_matches_Some f m :
  parse_matches f = Some m ↔ f = Some (SerializedMatches m).
Proof.
  split; [|by intros ->].
  destruct f as [[m'|t]|]; cbn; congruence.
Qed.

Lemma graph_in_exports (X : Collaborators) o sfm_data m f g :
  Call_exportToGraphvizData f g ∈ exports X o sfm_data m →
  g = putativeGraph sfm_data m.
Proof.
  unfold exports. intros Hin.
  apply elem_of_cons in Hin as [Hin|Hin]; [discriminate Hin|].
  apply list_elem_of_singleton in Hin. by injection Hin.
Qed.

(** C7.  Whenever a run exports a match graph, it is the graph of the loaded
    scene and of the final result, the one the match file holds when the run
    ends: its nodes are exactly the view identifiers of the scene, as many as
    there are views, and it has as many edges as the result has keys with a
    nonempty list. *)
Theorem exported_graph_is_complete (X : Collaborators) (o : Options) (w : World)
    (f : string) (g : indexedGraph) :
  Call_exportToGraphvizData f g ∈ trace (run X o w).2 →
  ∃ sfm_data m,
    sfm_data_files w !! sSfM_Data_Filename o = Some sfm_data ∧
    matches_files (world (run X o w).2) !! sOutputFilename o = Some (SerializedMatches m) ∧
    g = putativeGraph sfm_data m ∧
    graph_nodes g = dom (GetViews sfm_data) ∧
    size (graph_nodes g) = size (GetViews sfm_data) ∧
    size (graph_edges g) = length (filter has_matches (map_to_list m)).
Proof.
  destruct (run_preparation_cases X o w) as [(tr & Hout & ->)|(sd & r & p & Hp)].
  { intros Hin. cbn in Hin.
    no_export Hin. by eapply preparation_outcome_no_export. }
  assert (sfm_data_files w !! sSfM_Data_Filename o = Some sd) as Hscene
    by apply Hp.
  assert (∀ m, g = putativeGraph sd m →
            graph_nodes g = dom (GetViews sd) ∧
            size (graph_nodes g) = size (GetViews sd) ∧
            size (graph_edges g) = length (filter has_matches (map_to_list m)))
    as Hgraph by (intros m ->; apply putativeGraph_complete).
  destruct (decide (resumes o w)) as [Hr|Hr].
  - rewrite (run_resumed X _ _ _ _ _ Hp Hr).
    destruct (parse_matches _) as [m|] eqn:Hm; cbn [snd trace world]; intros Hin.
    + apply elem_of_app in Hin as [Hin|Hin].
      { no_export Hin. apply reload_no_export. }
      apply graph_in_exports in Hin. exists sd, m.
      rewrite exported_matches_files. apply parse_matches_Some in Hm. auto.
    + apply elem_of_app in Hin as [Hin|Hin].
      { no_export Hin. apply reload_no_export. }
      apply list_elem_of_singleton in Hin. discriminate Hin.
  - rewrite (run_recomputed X _ _ _ _ _ Hp Hr). cbn zeta.
    destruct (collectionMatcher _ _ _) as [matcher|]; cbn [snd trace world].
    2:{ intros Hin. apply elem_of_app in Hin as [Hin|Hin].
        { no_export Hin. apply approach_no_export. }
        apply list_elem_of_singleton in Hin. discriminate Hin. }
    destruct (loadPairs_from _ _ _) as [e|pairs]; cbn [snd trace world].
    { intros Hin. apply elem_of_app in Hin as [Hin|Hin].
      { no_export Hin. apply approach_no_export. }
      no_export Hin. repeat constructor. }
    destruct (decide _); cbn [snd trace world]; intros Hin.
    { apply elem_of_app in Hin as [Hin|Hin].
      { no_export Hin. apply approach_no_export. }
      no_export Hin. repeat constructor. }
    apply elem_of_app in Hin as [Hin|Hin].
    { no_export Hin. apply approach_no_export. }
    apply elem_of_app in Hin as [Hin|Hin].
    { no_export Hin. repeat constructor. }
    apply graph_in_exports in Hin. eexists sd, _.
    rewrite exported_matches_files. cbn [matches_files set_matches_files].
    rewrite lookup_insert_eq. auto.
Qed.

Lemma demo_graph_exported :
  Call_exportToGraphvizData "m/putative_matches" (putativeGraph Demo.scene Demo.stored)
    ∈ trace (run Demo.collaborators (Demo.options "AUTO" false 0) Demo.resumable).2.
Proof.
  rewrite (run_resumed Demo.collaborators _ _ _ _ _
             (demo_resumable_prepared "AUTO" false) (demo_resumes "AUTO" 0%N)).
  cbn [snd trace]. apply elem_of_app; right. is_listed.
Qed.

Lemma exported_graph_is_complete_witness :
  let g := putativeGraph Demo.scene Demo.stored in
  Call_exportToGraphvizData "m/putative_matches" g
    ∈ trace (run Demo.collaborators (Demo.options "AUTO" false 0) Demo.resumable).2 ∧
  size (graph_nodes g) = 3%nat ∧ size (graph_edges g) = 1%nat.
Proof.
  intros g. split; [exact demo_graph_exported|].
  destruct (exported_graph_is_complete Demo.collaborators
              (Demo.options "AUTO" false 0) Demo.resumable
              "m/putative_matches" g demo_graph_exported)
    as (sd & m & Hscene & Hm & Hg & _ & Hnodes & Hedges).
  injection Hscene as <-. injection Hm as <-.
  split; [exact Hnodes|]. rewrite Hedges. reflexivity.
Defined.

(** ** The pair source *)

Lemma canonical_sym (i j : IndexT) : canonical (i, j) = canonical (j, i).
Proof. unfold canonical. cbn. by rewrite N.min_comm, N.max_comm. Qed.

Lemma canonical_idemp (pr : Pair) : canonical (canonical pr) = canonical pr.
Proof.
  unfold canonical. cbn. f_equal.
  - apply N.min_l. etrans; [apply N.le_min_l|apply N.le_max_l].
  - apply N.max_r. etrans; [apply N.le_min_l|apply N.le_max_l].
Qed.

Lemma canonical_below (n : N) (i j : IndexT) :
  (i < n ∧ j < n)%N → ((canonical (i, j)).1 < n ∧ (canonical (i, j)).2 < n)%N.
Proof. unfold canonical. cbn. lia. Qed.

(** A successful read: every entry was acceptable, and the result holds the
    canonical key of every entry on top of what was there. *)
Lemma read_pairs_inr n src acc pairs :
  read_pairs n src acc = inr pairs →
  Forall (acceptable n) src ∧
  ∀ pr, pr ∈ pairs ↔ pr ∈ acc ∨ ∃ i j, PairOf i j ∈ src ∧ pr = canonical (i, j).
Proof.
  revert acc. induction src as [|[i j|t] src IH]; intros acc; cbn.
  - intros [= <-]. split; [constructor|]. intros pr. split; [auto|].
    intros [?|(i & j & Hin & _)]; [done|]. by apply elem_of_nil in Hin.
  - destruct (decide _) as [Hok|]; [|done]. intros Hread.
    apply IH in Hread as [Hall Hin]. split; [by constructor|].
    intros pr. rewrite Hin, elem_of_union, elem_of_singleton. split.
    + intros [[->|?]|(i' & j' & Hin' & ->)]; [right|by left|right].
      * exists i, j. split; [apply list_elem_of_here|done].
      * exists i', j'. split; [by apply list_elem_of_further|done].
    + intros [?|(i' & j' & Hin' & ->)]; [by left; right|].
      apply elem_of_cons in Hin' as [[= -> ->]|Hin']; [by left; left|].
      right. by exists i', j'.
  - done.
Qed.

(** A failed read: some entry was not acceptable, and the error names the
    first such entry's defect. *)
Lemma read_pairs_inl n src acc e :
  read_pairs n src acc = inl e →
  ∃ pre l post, src = pre ++ l :: post ∧ Forall (acceptable n) pre ∧
    match l with
    | PairOf i j => ¬ (i < n ∧ j < n)%N ∧ e = InvalidPair
    | Garbled _ => e = ParseError
    end.
Proof.
  revert acc. induction src as [|[i j|t] src IH]; intros acc; cbn.
  - done.
  - destruct (decide _) as [Hok|Hbad].
    + intros Hread. apply IH in Hread as (pre & l & post & -> & Hpre & Hl).
      exists (PairOf i j :: pre), l, post. split; [done|]. split; [by constructor|done].
    + intros [= <-]. exists [], (PairOf i j), src. split; [done|]. split; [constructor|done].
  - intros [= <-]. exists [], (Garbled t), src. split; [done|]. split; [constructor|done].
Qed.

Lemma read_pairs_acceptable n src acc :
  Forall (acceptable n) src → ∃ pairs, read_pairs n src acc = inr pairs.
Proof.
  intros Hall. revert acc. induction Hall as [|[i j|t] src Hl Hall IH]; intros acc; cbn.
  - by eexists.
  - cbn in Hl. rewrite decide_True by done. apply IH.
  - done.
Qed.

(** C5.  [loadPairs] fails exactly when some entry of the pair list is
    malformed or names a view identifier that is not below the view count:
    InvalidPair when the first offending entry is an out-of-range pair,
    ParseError when it is malformed.  In a prepared, recomputing run whose
    matcher is allocated, such a failure ends the run with [EXIT_FAILURE]
    right after the call of [loadPairs]: nothing is matched, nothing is
    written.  On success the result is a duplicate-free set of canonical keys
    below the view count, one for each entry of the source, the same for an
    entry and its reversal. *)
Theorem pair_list_contract (X : Collaborators) (o : Options) (w : World)
    (sfm_data : SfM_Data) (regions_type : Regions) (p : provider) (matcher : Matcher)
    (src : list PairLine) :
  prepared X o w sfm_data regions_type p →
  ¬ resumes o w →
  collectionMatcher (sNearestMatchingMethod o) regions_type (fDistRatio o) = Some matcher →
  pair_files w !! sPredefinedPairList o = Some src →
  let n := size (GetViews sfm_data) in
  let loaded := loadPairs_from w n (sPredefinedPairList o) in
  ((∃ e, loaded = inl e) ↔ ¬ Forall (acceptable (N.of_nat n)) src) ∧
  (∀ e, loaded = inl e →
     (∃ pre l post, src = pre ++ l :: post ∧ Forall (acceptable (N.of_nat n)) pre ∧
        match l with
        | PairOf i j => ¬ (i < N.of_nat n ∧ j < N.of_nat n)%N ∧ e = InvalidPair
        | Garbled _ => e = ParseError
        end) ∧
     run X o w =
       (EXIT_FAILURE,
        {| world := w;
           trace := approach X o ++
                    [Call_loadPairs n (sPredefinedPairList o);
                     Cerr (Failed_to_load_pairs_from_file (sPredefinedPairList o))] |})) ∧
  (∀ pairs, loaded = inr pairs →
     NoDup (elements pairs) ∧
     (∀ pr, pr ∈ pairs →
        canonical pr = pr ∧ (pr.1 < N.of_nat n)%N ∧ (pr.2 < N.of_nat n)%N) ∧
     (∀ pr, pr ∈ pairs ↔ ∃ i j, PairOf i j ∈ src ∧ pr = canonical (i, j)) ∧
     (∀ i j, PairOf i j ∈ src → canonical (i, j) ∈ pairs ∧ canonical (j, i) = canonical (i, j))).
Proof.
  intros Hp Hr Hm Hsrc n loaded. subst n loaded. unfold loadPairs_from. rewrite Hsrc.
  set (n := N.of_nat (size (GetViews sfm_data))).
  split; [|split].
  - split.
    + intros [e He] Hall.
      destruct (read_pairs_acceptable n src ∅ Hall) as [pairs Hok]. congruence.
    + intros Hbad. destruct (read_pairs _ _ _) as [e|pairs] eqn:Hread; [by eexists|].
      by apply read_pairs_inr in Hread as [Hall _].
  - intros e He. split; [by eapply read_pairs_inl|].
    rewrite (run_recomputed X _ _ _ _ _ Hp Hr). cbn zeta.
    unfold loadPairs_from. fold n. by rewrite Hm, Hsrc, He.
  - intros pairs Hok. apply read_pairs_inr in Hok as [Hall Hin].
    assert (∀ pr, pr ∈ pairs ↔ ∃ i j, PairOf i j ∈ src ∧ pr = canonical (i, j)) as Hin'.
    { intros pr. rewrite Hin. split; [|auto]. intros [Hempty|?]; [|done].
      by apply not_elem_of_empty in Hempty. }
    split; [apply NoDup_elements|]. split; [|split; [exact Hin'|]].
    + intros pr Hpr. apply Hin' in Hpr as (i & j & Hij & ->).
      split; [apply canonical_idemp|]. apply canonical_below.
      rewrite Forall_forall in Hall. apply (Hall _ Hij).
    + intros i j Hij. split; [|apply canonical_sym].
      apply Hin'. by exists i, j.
Qed.

Lemma pair_list_contract_witness :
  let o := Demo.options "AUTO" false 0 in
  let w := Demo.fresh Demo.scalar in
  loadPairs_from w 3 "pairs.txt" = inr Demo.pairs ∧
  elements Demo.pairs = [(0%N, 1%N); (1%N, 2%N)] ∧
  (canonical (2%N, 1%N) ∈ Demo.pairs ∧ canonical (1%N, 2%N) = canonical (2%N, 1%N)).
Proof.
  intros o w.
  assert (prepared Demo.collaborators o w Demo.scene Demo.scalar Demo.loaded) as Hp
    by apply demo_prepared_unbounded.
  assert (¬ resumes o w) as Hr by apply demo_not_resumes.
  destruct (pair_list_contract Demo.collaborators o w Demo.scene Demo.scalar Demo.loaded
              (Cascade_Hashing_Matcher_Regions (fDistRatio o))
              [PairOf 0%N 1%N; PairOf 2%N 1%N; PairOf 1%N 0%N]
              Hp Hr eq_refl eq_refl) as (_ & _ & Hok).
  destruct (Hok Demo.pairs (demo_pairs Demo.scalar)) as (_ & _ & _ & Hkeys).
  split; [apply demo_pairs|]. split; [vm_compute; reflexivity|].
  apply (Hkeys 2%N 1%N). is_listed.
Defined.

(** ** The matching engine *)

Section Engine.

Context (X : Collaborators).

Lemma Match_from_snoc w matcher p l pr m :
  foldl (Match_step X w matcher) (m, p) (l ++ [pr])
  = Match_step X w matcher (foldl (Match_step X w matcher) (m, p) l) pr.
Proof. by rewrite foldl_app. Qed.

Lemma Match_step_fst w matcher acc pr :
  (Match_step X w matcher acc pr).1
  = <[canonical pr := (Match_pair X w matcher acc.2 pr).1]> acc.1.
Proof. unfold Match_step. by destruct (Match_pair _ _ _ _ _). Qed.

(** After the engine has gone through a list of pairs, the keys are the
    previous keys and the canonical keys of the list, and each pair of the
    list holds the outcome of its own matching. *)
Lemma Match_fold_spec (w : World) (matcher : Matcher) (p : provider)
    (l : list Pair) (m : PairWiseMatches) :
  NoDup (canonical <$> l) →
  let out := (foldl (Match_step X w matcher) (m, p) l).1 in
  dom out = dom m ∪ list_to_set (canonical <$> l) ∧
  ∀ pr, pr ∈ l → ∃ q, out !! canonical pr = Some (Match_pair X w matcher q pr).1.
Proof.
  induction l as [|pr l IH] using rev_ind; intros Hnd; cbn zeta.
  - cbn. split; [by rewrite (right_id_L ∅ (∪))|]. intros pr Hin. by apply elem_of_nil in Hin.
  - rewrite fmap_app in Hnd. apply NoDup_app in Hnd as (Hnd & Hfresh & _).
    destruct (IH Hnd) as [Hdom Hall].
    rewrite Match_from_snoc, Match_step_fst. split.
    + rewrite dom_insert_L, Hdom, fmap_app, list_to_set_app_L. cbn.
      rewrite (right_id_L ∅ (∪)), (comm_L (∪) {[canonical pr]}). by rewrite (assoc_L (∪)).
    + intros pr' Hin. apply elem_of_app in Hin as [Hin|Hin].
      * destruct (Hall pr' Hin) as [q Hq]. exists q.
        rewrite lookup_insert_ne; [done|].
        intros Heq. apply (Hfresh (canonical pr')).
        -- by apply list_elem_of_fmap_2.
        -- rewrite <- Heq. cbn. apply list_elem_of_here.
      * apply list_elem_of_singleton in Hin as ->.
        eexists. apply lookup_insert_eq.
Qed.

(** On a set of canonical keys, starting from the empty result. *)
Lemma Match_from_spec (w : World) (matcher : Matcher) (p : provider) (pairs : Pair_Set) :
  (∀ pr, pr ∈ pairs → canonical pr = pr) →
  let out := (Match_from X w matcher p pairs ∅).1 in
  dom out = pairs ∧
  ∀ pr, pr ∈ pairs → ∃ q, out !! pr = Some (Match_pair X w matcher q pr).1.
Proof.
  intros Hcanon.
  assert (canonical <$> elements pairs = elements pairs) as Hid.
  { rewrite <- (list_fmap_id (elements pairs)) at 2.
    apply list_fmap_ext. intros i pr Hpr. apply Hcanon.
    apply elem_of_elements. by eapply list_elem_of_lookup_2. }
  destruct (Match_fold_spec w matcher p (elements pairs) ∅) as [Hdom Hall].
  { rewrite Hid. apply NoDup_elements. }
  split.
  - unfold Match_from. rewrite Hdom, Hid, dom_empty_L, list_to_set_elements_L.
    by rewrite (left_id_L ∅ (∪)).
  - intros pr Hpr. destruct (Hall pr) as [q Hq]; [by apply elem_of_elements|].
    exists q. by rewrite (Hcanon pr Hpr) in Hq.
Qed.

End Engine.

(** C8.  In a prepared, recomputing run whose matcher is allocated, whose pair
    list loads and whose match file can be written, the saved result has
    exactly the loaded pairs as keys.  Each pair holds the list its own
    matching produced, and that list is stored even when it is empty: when the
    matcher retains nothing, every attempted pair is present with the empty
    list. *)
Theorem match_stores_every_attempted_pair (X : Collaborators) (o : Options) (w : World)
    (sfm_data : SfM_Data) (regions_type : Regions) (p : provider) (matcher : Matcher)
    (pairs : Pair_Set) :
  prepared X o w sfm_data regions_type p →
  ¬ resumes o w →
  collectionMatcher (sNearestMatchingMethod o) regions_type (fDistRatio o) = Some matcher →
  loadPairs_from w (size (GetViews sfm_data)) (sPredefinedPairList o) = inr pairs →
  sOutputFilename o ∉ read_only w →
  ∃ m,
    matches_files (world (run X o w).2) !! sOutputFilename o = Some (SerializedMatches m) ∧
    Call_Save m (sOutputFilename o) ∈ trace (run X o w).2 ∧
    dom m = pairs ∧
    (∀ pr, pr ∉ pairs → m !! pr = None) ∧
    (∀ pr, pr ∈ pairs → ∃ q, m !! pr = Some (Match_pair X w matcher q pr).1) ∧
    ((∀ a b, match_regions X matcher a b = []) → ∀ pr, pr ∈ pairs → m !! pr = Some []).
Proof.
  intros Hp Hr Hm Hpairs Hro.
  exists (Match_from X w matcher p pairs ∅).1.
  assert (∀ pr, pr ∈ pairs → canonical pr = pr) as Hcanon.
  { unfold loadPairs_from in Hpairs.
    destruct (pair_files w !! _) as [src|]; [|done].
    apply read_pairs_inr in Hpairs as [_ Hin]. intros pr Hpr.
    apply Hin in Hpr as [Hpr|(i & j & _ & ->)]; [by apply not_elem_of_empty in Hpr|].
    apply canonical_idemp. }
  destruct (Match_from_spec X w matcher p pairs Hcanon) as [Hdom Hall].
  rewrite (run_recomputed X _ _ _ _ _ Hp Hr). cbn zeta.
  rewrite Hm, Hpairs, decide_False by done. cbn [snd world trace].
  split; [|split; [|split; [|split; [|split]]]].
  - rewrite exported_matches_files. cbn. apply lookup_insert_eq.
  - apply elem_of_app; right. apply elem_of_app; left. is_listed.
  - exact Hdom.
  - intros pr Hpr. apply not_elem_of_dom. by rewrite Hdom.
  - exact Hall.
  - intros Hnone pr Hpr. destruct (Hall pr Hpr) as [q ->]. f_equal.
    unfold Match_pair.
    destruct (fetch w q pr.1) as [[a|] q1]; destruct (fetch w q1 pr.2) as [[b|] q2];
      cbn; try done.
    by destruct (decide _).
Qed.

Lemma match_stores_every_attempted_pair_witness :
  let o := Demo.options "BRUTEFORCEL2" false 0 in
  let w := Demo.fresh Demo.scalar in
  ∃ m,
    matches_files (world (run Demo.collaborators o w).2) !! "m/matches.bin"
      = Some (SerializedMatches m) ∧
    dom m = {[ (0%N, 1%N); (1%N, 2%N) ]} ∧
    m !! (0%N, 2%N) = None.
Proof.
  intros o w.
  destruct (match_stores_every_attempted_pair Demo.collaborators o w
              Demo.scene Demo.scalar Demo.loaded
              (Matcher_Regions (fDistRatio o) BRUTE_FORCE_L2) Demo.pairs)
    as (m & Hsaved & _ & Hdom & Habsent & _).
  - apply demo_prepared_unbounded.
  - apply demo_not_resumes.
  - reflexivity.
  - apply demo_pairs.
  - vm_compute. intros Hin. discriminate Hin.
  - exists m. split; [exact Hsaved|]. split; [exact Hdom|].
    apply Habsent. vm_compute. intros Hin. discriminate Hin.
Defined.

(** The third view of the demo scene has a single descriptor: the pair (1,2) is
    attempted, retains nothing, and is stored with the empty list. *)
Example demo_empty_entry_is_stored :
  parse_matches
    (matches_files
       (world (run Demo.collaborators (Demo.options "BRUTEFORCEL2" false 0)
                 (Demo.fresh Demo.scalar)).2) !! "m/matches.bin")
  = Some Demo.stored.
Proof. vm_compute. reflexivity. Qed.

(** ** The bounded provider keeps the most recently used views *)

Section Recency.

Context {A : Type} `{EqDecision A}.
Implicit Types (l : list A) (x : A).

Lemma filter_ne_absent l x : x ∉ l → filter (λ y, y ≠ x) l = l.
Proof.
  induction l as [|a l IH]; [done|]. intros Hx.
  apply not_elem_of_cons in Hx as [Hne Hx].
  rewrite filter_cons_True by done. by rewrite IH.
Qed.

(** A new use moves the view to the end of the list of last uses. *)
Lemma remove_dups_snoc l x :
  remove_dups (l ++ [x]) = filter (λ y, y ≠ x) (remove_dups l) ++ [x].
Proof.
  induction l as [|a l IH]; cbn.
  - destruct (decide_rel _ _ _) as [Hin|_]; [by apply elem_of_nil in Hin|done].
  - rewrite IH. assert (a ∈ l ++ [x] ↔ a ∈ l ∨ a = x) as Hsnoc.
    { by rewrite elem_of_app, list_elem_of_singleton. }
    destruct (decide_rel _ a (l ++ [x])) as [Hin|Hin], (decide_rel _ a l) as [Hin'|Hin'],
      (decide (a = x)) as [->|Hne]; try tauto.
    + by rewrite filter_cons_False by (by intros ?).
    + by rewrite filter_cons_True by done.
Qed.

Lemma elem_of_take_weaken l x n m : (n ≤ m)%nat → x ∈ take n l → x ∈ take m l.
Proof.
  intros Hle. rewrite !elem_of_take. intros (i & Hi & Hlt). exists i. split; [done|lia].
Qed.

Lemma elem_of_take_elem_of l x n : x ∈ take n l → x ∈ l.
Proof. rewrite elem_of_take. intros (i & Hi & _). by eapply list_elem_of_lookup_2. Qed.

(** Removing a view that is not among the first [n] leaves the first [n]. *)
Lemma take_filter_ne_absent l x n :
  x ∉ take n l → take n (filter (λ y, y ≠ x) l) = take n l.
Proof.
  revert n. induction l as [|a l IH]; intros n Hx; [done|].
  destruct n as [|n]; [done|]. cbn [take] in Hx.
  apply not_elem_of_cons in Hx as [Hne Hx].
  rewrite filter_cons_True by done. cbn [take]. by rewrite IH.
Qed.

(** Removing a view that is among the first [n + 1] brings the next one in. *)
Lemma take_filter_ne_present l x n :
  NoDup l → x ∈ take (S n) l →
  take n (filter (λ y, y ≠ x) l) = filter (λ y, y ≠ x) (take (S n) l).
Proof.
  revert n. induction l as [|a l IH]; intros n Hnd Hx; cbn [take] in *.
  { by apply elem_of_nil in Hx. }
  apply NoDup_cons in Hnd as [Ha Hnd].
  destruct (decide (a = x)) as [->|Hne].
  - rewrite !filter_cons_False by (by intros ?).
    rewrite filter_ne_absent by done.
    rewrite filter_ne_absent; [done|].
    intros Hin. by apply elem_of_take_elem_of in Hin.
  - rewrite !filter_cons_True by done.
    apply elem_of_cons in Hx as [->|Hx]; [done|].
    destruct n as [|n]; [by apply elem_of_nil in Hx|].
    cbn [take]. f_equal. by apply IH.
Qed.

End Recency.

Section Bounded.

Context (w : World) (c : N) (dir : string) (known : gset IndexT).
Hypothesis capacity_positive : c ≠ 0%N.

Local Abbreviation holds_most_recent := (holds_most_recent w c dir known).

Lemma resident_Some id lru r : resident id lru = Some r → (id, r) ∈ lru.
Proof.
  unfold resident.
  match goal with |- context [List.find ?f lru] => destruct (List.find f lru) as [[id' r']|] eqn:Hfind end;
    [|done].
  intros [= <-]. apply find_some in Hfind as [Hin Heq].
  apply N.eqb_eq in Heq. cbn in Heq. subst id'. by apply list_elem_of_In.
Qed.

Lemma resident_None id lru : resident id lru = None → id ∉ lru.*1.
Proof.
  unfold resident.
  match goal with |- context [List.find ?f lru] => destruct (List.find f lru) as [e|] eqn:Hfind end;
    [done|].
  intros _ Hin. apply list_elem_of_fmap in Hin as ([id' r] & -> & Hin).
  apply list_elem_of_In in Hin.
  pose proof (find_none _ _ Hfind _ Hin) as Hne. cbn in Hne.
  by rewrite N.eqb_refl in Hne.
Qed.

Lemma forget_fst id lru : (forget id lru).*1 = filter (λ y, y ≠ id) lru.*1.
Proof.
  unfold forget. induction lru as [|[id' r] lru IH]; [done|].
  rewrite fmap_cons. cbn [fst].
  destruct (decide (id' = id)) as [->|Hne].
  - rewrite !filter_cons_False by (cbn; by intros ?). exact IH.
  - rewrite !filter_cons_True by done. rewrite fmap_cons. cbn [fst]. by rewrite IH.
Qed.

Lemma make_room_fst lru :
  (make_room c lru).*1 =
    if decide (length lru.*1 < N.to_nat c)%nat then lru.*1
    else take (length lru.*1 - 1) lru.*1.
Proof.
  unfold make_room. rewrite length_fmap. destruct (decide _); [done|].
  rewrite removelast_firstn_len, Nat.sub_1_r. apply fmap_take.
Qed.

Lemma make_room_Forall (P : IndexT * RegionSet → Prop) lru :
  Forall P lru → Forall P (make_room c lru).
Proof.
  unfold make_room. destruct (decide _); [done|].
  rewrite removelast_firstn_len. apply Forall_take.
Qed.

Lemma most_recent_snoc used x :
  most_recent c (used ++ [x])
  = x :: take (N.to_nat c - 1) (filter (λ y, y ≠ x) (reverse (remove_dups used))).
Proof.
  unfold most_recent. rewrite remove_dups_snoc, reverse_snoc, filter_reverse.
  destruct (N.to_nat c) as [|n] eqn:Hc; [lia|]. cbn. by rewrite Nat.sub_0_r.
Qed.

(** One fetch: the answer is the data on disk of a deliverable view, nothing
    otherwise, and the provider holds the most recently used views again. *)
Lemma fetch_holds_most_recent ids q x :
  holds_most_recent ids q →
  (fetch w q x).1 = (if decide (x ∈ known) then regions_files w !! (dir, x) else None) ∧
  holds_most_recent (ids ++ [x]) (fetch w q x).2.
Proof.
  intros (lru & -> & Hids & Hdata). cbn.
  set (used := filter (deliverable w dir known) ids) in *.
  assert (∀ r, regions_files w !! (dir, x) = Some r → x ∈ known →
            filter (deliverable w dir known) (ids ++ [x]) = used ++ [x]) as Hyes.
  { intros r Hr Hk. rewrite filter_app. f_equal.
    rewrite filter_cons_True; [done|]. split; [done|by eexists]. }
  assert (¬ deliverable w dir known x →
            holds_most_recent (ids ++ [x]) (Regions_Provider_Cache c dir known lru)) as Hno.
  { intros Hnd. exists lru. split; [done|]. split; [|done].
    rewrite filter_app, filter_cons_False by done. by rewrite app_nil_r. }
  assert (NoDup (reverse (remove_dups used))) as Hnodup
    by (rewrite reverse_Permutation; apply NoDup_remove_dups).
  destruct (decide (x ∈ known)) as [Hk|Hk].
  2:{ split; [done|]. apply Hno. by intros [? _]. }
  destruct (resident x lru) as [r|] eqn:Hres.
  - apply resident_Some in Hres.
    assert (regions_files w !! (dir, x) = Some r) as Hr.
    { rewrite Forall_forall in Hdata. apply (Hdata _ Hres). }
    split; [done|]. cbn.
    exists ((x, r) :: forget x lru). split; [done|]. split.
    + cbn. rewrite forget_fst, Hids, (Hyes r Hr Hk), most_recent_snoc. f_equal.
      unfold most_recent.
      assert (x ∈ take (N.to_nat c) (reverse (remove_dups used))) as Hin.
      { unfold most_recent in Hids. rewrite <- Hids.
        by apply (list_elem_of_fmap_2 fst) in Hres. }
      destruct (N.to_nat c) as [|n]; [by apply elem_of_nil in Hin|].
      rewrite Nat.sub_succ, Nat.sub_0_r. symmetry. by apply take_filter_ne_present.
    + constructor; [done|]. unfold forget.
      rewrite Forall_forall in Hdata. apply Forall_forall.
      intros e He. apply list_elem_of_filter in He as [_ He]. by apply Hdata.
  - apply resident_None in Hres.
    destruct (regions_files w !! (dir, x)) as [r|] eqn:Hr.
    2:{ split; [done|]. apply Hno. intros [_ [r' Hr']]. congruence. }
    split; [done|]. cbn.
    exists ((x, r) :: make_room c lru). split; [done|]. split.
    + cbn. rewrite make_room_fst, Hids, (Hyes r eq_refl Hk), most_recent_snoc. f_equal.
      rewrite Hids in Hres. unfold most_recent in *.
      set (D := reverse (remove_dups used)) in *.
      rewrite length_take. destruct (decide _) as [Hlt|Hge].
      * assert (length D < N.to_nat c)%nat as HD by lia.
        rewrite (take_ge D (N.to_nat c)) in * by lia.
        rewrite filter_ne_absent by done. symmetry. apply take_ge. lia.
      * assert (N.to_nat c ≤ length D)%nat as HD by lia.
        rewrite Nat.min_l by done. rewrite take_take, Nat.min_l by lia.
        symmetry. apply take_filter_ne_absent. intros Hin. apply Hres.
        eapply elem_of_take_weaken; [|exact Hin]. lia.
    + constructor; [done|]. by apply make_room_Forall.
Qed.

Lemma fetches_snoc p ids x :
  fetches w p (ids ++ [x]) = (fetch w (fetches w p ids) x).2.
Proof. unfold fetches. by rewrite foldl_app. Qed.

Lemma fetches_holds_most_recent ids :
  holds_most_recent ids (fetches w (Regions_Provider_Cache c dir known []) ids).
Proof.
  induction ids as [|x ids IH] using rev_ind.
  - exists []. split; [done|]. split; [|constructor].
    unfold most_recent. cbn. by rewrite take_nil.
  - rewrite fetches_snoc. by apply fetch_holds_most_recent.
Qed.

End Bounded.

Lemma fetches_unbounded w cache ids :
  fetches w (Regions_Provider cache) ids = Regions_Provider cache.
Proof. induction ids as [|id ids IH]; [done|]. exact IH. Qed.

(** The two providers, apart from any run.  The provider built for cache size
    0 loads the data of every view or does not load; afterwards a fetch of a
    view of the scene is a lookup that needs no file, always answers and leaves
    the provider as it is.  The provider built for a cache size [c] other than
    0 holds nothing after its load; after any sequence of fetches it holds the
    [c] most recently used deliverable views, and a fetch answers with the
    data on disk. *)
Lemma provider_by_capacity (w : World) (sfm_data : SfM_Data) (dir : string)
    (regions_type : Regions) :
  regions_provider 0 = Regions_Provider ∅ ∧
  (∀ c, c ≠ 0%N → regions_provider c = Regions_Provider_Cache c EmptyString ∅ []) ∧
  ((∃ p, provider_load w (regions_provider 0) sfm_data dir regions_type = Some p) ↔
   (∀ id, id ∈ dom (GetViews sfm_data) → is_Some (regions_files w !! (dir, id)))) ∧
  (∀ p, provider_load w (regions_provider 0) sfm_data dir regions_type = Some p →
     (∀ id, id ∈ dom (GetViews sfm_data) →
        ∃ r, regions_files w !! (dir, id) = Some r ∧ ∀ w', fetch w' p id = (Some r, p)) ∧
     (∀ w' ids, fetches w' p ids = p)) ∧
  (∀ c, c ≠ 0%N →
     let p0 := Regions_Provider_Cache c dir (dom (GetViews sfm_data)) [] in
     provider_load w (regions_provider c) sfm_data dir regions_type = Some p0 ∧
     held p0 = [] ∧
     ∀ ids,
       let q := fetches w p0 ids in
       capacity_of q = c ∧
       held q = most_recent c (filter (deliverable w dir (dom (GetViews sfm_data))) ids) ∧
       (length (held q) ≤ N.to_nat c)%nat ∧
       ∀ id, (fetch w q id).1 =
               if decide (id ∈ dom (GetViews sfm_data))
               then regions_files w !! (dir, id) else None).
Proof.
  split; [reflexivity|]. split; [exact regions_provider_bounded|].
  split; [|split].
  - rewrite regions_provider_unbounded. split.
    + intros [p Hp] id Hid.
      apply provider_load_unbounded in Hp as (loaded & _ & _ & Hall).
      destruct (Hall id Hid) as [Hsome Heq]. by rewrite <- Heq.
    + intros Hall. cbn. rewrite decide_True; [by eexists|].
      apply set_eq. intros id. rewrite !elem_of_dom, map_lookup_imap.
      destruct (GetViews sfm_data !! id) as [v|] eqn:Hv; cbn.
      * split; [by eexists|]. intros _. apply Hall, elem_of_dom. by eexists.
      * split; intros [? ?]; done.
  - rewrite regions_provider_unbounded. intros p Hp.
    apply provider_load_unbounded in Hp as (loaded & -> & _ & Hall). split.
    + intros id Hid. destruct (Hall id Hid) as [[r Hr] Heq].
      exists r. split; [congruence|]. intros w'. cbn. by rewrite Hr.
    + intros w' ids. apply fetches_unbounded.
  - intros c Hc p0. split; [by rewrite regions_provider_bounded|]. split; [done|].
    intros ids q.
    destruct (fetches_holds_most_recent w c dir (dom (GetViews sfm_data)) Hc ids)
      as (lru & Hq & Hids & Hdata).
    fold p0 q in Hq. rewrite Hq. cbn [capacity_of held].
    split; [done|]. split; [done|]. split.
    + rewrite Hids. unfold most_recent. rewrite length_take. lia.
    + intros id. rewrite <- Hq.
      apply (fetch_holds_most_recent w c dir (dom (GetViews sfm_data)) Hc ids).
      exists lru. by rewrite <- Hq.
Qed.

(** A bounded provider of capacity 2 on the demo scene: fetching views 0, 1
    and 2 evicts view 0; fetching view 1 again evicts nothing; fetching view 0
    then evicts view 2, the least recently used. *)
Example demo_bounded_provider :
  let w := Demo.fresh Demo.scalar in
  held (fetches w (Demo.primed 2) [0%N; 1%N; 2%N]) = [2%N; 1%N] ∧
  held (fetches w (Demo.primed 2) [0%N; 1%N; 2%N; 1%N]) = [1%N; 2%N] ∧
  held (fetches w (Demo.primed 2) [0%N; 1%N; 2%N; 1%N; 0%N]) = [0%N; 1%N] ∧
  (fetch w (Demo.primed 2) 7%N).1 = None.
Proof. vm_compute. repeat split. Qed.

(** ** Every run of [main] is one of the eleven outcomes *)

Section Outcomes.

Context (X : Collaborators).

Lemma run_outcome o w : outcome X o w (run X o w).
Proof.
  destruct (preparation_outcome X o w) as [tr|[[sd r] p]] eqn:Hout.
  - rewrite (run_unprepared X o w tr Hout).
    unfold preparation_outcome in Hout.
    destruct (String.eqb_spec (sPredefinedPairList o) EmptyString) as [Hp|Hp].
    { injection Hout as <-. by constructor. }
    destruct (String.eqb_spec (sOutputFilename o) EmptyString) as [Ho|Ho].
    { injection Hout as <-. by constructor. }
    destruct (sfm_data_files w !! _) as [sd|] eqn:Hs.
    2:{ injection Hout as <-. by constructor. }
    destruct (image_describer_files w !! _) as [r|] eqn:Hd.
    2:{ injection Hout as <-. by eapply regions_type_unreadable. }
    destruct (provider_load _ _ _ _ _) as [p|] eqn:Hl; [done|].
    injection Hout as <-. by eapply regions_invalid.
  - apply preparation_outcome_prepared in Hout.
    destruct (decide (resumes o w)) as [Hr|Hr].
    + rewrite (run_resumed X _ _ _ _ _ Hout Hr).
      destruct (parse_matches _) as [m|] eqn:Hm.
      * apply parse_matches_Some in Hm. by eapply reloaded.
      * by eapply reload_failed.
    + rewrite (run_recomputed X _ _ _ _ _ Hout Hr). cbn zeta.
      destruct (collectionMatcher _ _ _) as [matcher|] eqn:Hm.
      2:{ by eapply no_matcher. }
      destruct (loadPairs_from _ _ _) as [e|pairs] eqn:Hpairs.
      { by eapply pairs_unreadable. }
      destruct (decide _) as [Hro|Hro].
      * by eapply save_failed.
      * by eapply (computed X o w sd r p matcher pairs).
Qed.

(** [main] prints the usage and fails, or is [run] on the options read. *)
Lemma main_cases argv w :
  ((length argv = 1%nat ∨ cmd_process X argv initial_options = None) ∧
   ∃ thrown,
     main X argv w =
       (EXIT_FAILURE, {| world := w; trace := [Cerr Usage; Cerr thrown] |})) ∨
  (∃ o, length argv ≠ 1%nat ∧ cmd_process X argv initial_options = Some o ∧
        main X argv w = run X o w).
Proof.
  destruct (decide (length argv = 1%nat)) as [Hargc|Hargc].
  { left. split; [by left|]. apply main_usage. by left. }
  destruct (cmd_process X argv initial_options) as [o|] eqn:Hcmd.
  - right. exists o. split; [done|]. split; [done|]. by apply main_is_run.
  - left. split; [by right|]. apply main_usage. by right.
Qed.

End Outcomes.

(** ** Exit status, messages and writes *)

Section Discipline.

Context (X : Collaborators).

Lemma preparation_calls o : Forall (λ e, is_call e = true) (preparation X o).
Proof. repeat constructor. Qed.

Lemma reload_calls o : Forall (λ e, is_call e = true) (reload X o).
Proof. repeat constructor. Qed.

Lemma approach_calls o : Forall (λ e, is_call e = true) (approach X o).
Proof. unfold approach, preparation. destruct (bForce o); repeat constructor. Qed.

Lemma exports_calls o sfm_data m : Forall (λ e, is_call e = true) (exports X o sfm_data m).
Proof. repeat constructor. Qed.

Lemma engine_calls_calls o sfm_data matcher pairs m :
  Forall (λ e, is_call e = true) (engine_calls o sfm_data matcher pairs m).
Proof. repeat constructor. Qed.

(** A run fails without a single call exactly when a required path is
    missing. *)
Lemma run_fails_before_any_work_iff o w :
  fails_before_any_work w (run X o w) ↔
  sPredefinedPairList o = EmptyString ∨ sOutputFilename o = EmptyString.
Proof.
  unfold fails_before_any_work.
  destruct (run_outcome X o w);
    try match goal with
        | Hp : prepared _ _ _ _ _ _ |- _ => destruct Hp as (? & ? & _)
        end;
    first
      [ solve [split; [by left|intros _; repeat split; repeat constructor]]
      | solve [split; [by right|intros _; repeat split; repeat constructor]]
      | split; [|intros [?|?]; done] ];
    intros (Hs & Hcalls & _); cbn in Hs; try discriminate Hs;
    unfold approach, reload, preparation in Hcalls; cbn in Hcalls;
    apply Forall_inv in Hcalls; discriminate Hcalls.
Qed.


Lemma run_failure_writes_nothing o w :
  (run X o w).1 = EXIT_FAILURE →
  world (run X o w).2 = w ∧ Forall (λ e, is_export e = false) (trace (run X o w).2).
Proof.
  destruct (run_outcome X o w); cbn [fst snd world trace]; intros Hs;
    try (cbn in Hs; discriminate Hs); (split; [done|]).
  - repeat constructor.
  - repeat constructor.
  - repeat constructor.
  - repeat constructor.
  - repeat constructor.
  - apply Forall_app. split; [apply reload_no_export|repeat constructor].
  - apply Forall_app. split; [apply approach_no_export|repeat constructor].
  - apply Forall_app. split; [apply approach_no_export|repeat constructor].
  - rewrite !Forall_app. split; [apply approach_no_export|]. split; repeat constructor.
Qed.

End Discipline.

(** X1.  [main] returns [EXIT_FAILURE] without calling any collaborator and
    without touching the world exactly when it is given no argument, when
    [cmd.process] throws, or when the pair list path or the output path is
    empty.  Every other failure comes after the scene has been asked for. *)
Theorem main_fails_before_any_work_iff (X : Collaborators) (argv : list string) (w : World) :
  fails_before_any_work w (main X argv w) ↔
  length argv = 1%nat ∨
  match cmd_process X argv initial_options with
  | None => True
  | Some o => sPredefinedPairList o = EmptyString ∨ sOutputFilename o = EmptyString
  end.
Proof.
  destruct (main_cases X argv w) as [[Hbad [thrown ->]]|(o & Hargc & Hcmd & ->)].
  - split.
    + intros _. destruct Hbad as [?|Hcmd]; [by left|]. right. by rewrite Hcmd.
    + intros _. repeat split. repeat constructor.
  - rewrite run_fails_before_any_work_iff, Hcmd. split; [by right|].
    intros [?|?]; done.
Qed.


(** X3.  A run that returns [EXIT_FAILURE] leaves the world as it found it (no
    match file written or replaced, no diagnostic written) and has called
    neither exporter. *)
Theorem failure_writes_nothing (X : Collaborators) (argv : list string) (w : World) :
  (main X argv w).1 = EXIT_FAILURE →
  world (main X argv w).2 = w ∧
  Forall (λ e, is_export e = false) (trace (main X argv w).2).
Proof.
  destruct (main_cases X argv w) as [[_ [thrown ->]]|(o & _ & _ & ->)].
  - intros _. split; [done|]. repeat constructor.
  - apply run_failure_writes_nothing.
Qed.

Lemma failure_writes_nothing_witness :
  let X := Scenes.reading (Demo.options "AUTO" false 0) in
  (main X ["ComputeMatches"; "-i"; "sfm.json"] Demo.damaged).1 = EXIT_FAILURE ∧
  world (main X ["ComputeMatches"; "-i"; "sfm.json"] Demo.damaged).2 = Demo.damaged.
Proof.
  intros X.
  assert ((main X ["ComputeMatches"; "-i"; "sfm.json"] Demo.damaged).1 = EXIT_FAILURE)
    as Hfail by reflexivity.
  split; [exact Hfail|].
  exact (proj1 (failure_writes_nothing X _ Demo.damaged Hfail)).
Defined.

(** ** When a run succeeds, and what it then leaves *)

(** X4.  [main_with] returns [EXIT_SUCCESS] exactly when both paths are given,
    the scene, the regions type and the regions load, and then: on the
    resuming branch the match file parses; on the computing branch the
    selector names a matcher, the pair list loads and the match file can be
    written.  Nothing else can make a run fail, whether an export fails or
    succeeds in particular. *)
Theorem run_succeeds_iff (X : Collaborators) (o : Options) (w : World) :
  (run X o w).1 = EXIT_SUCCESS ↔
  ∃ sfm_data regions_type p,
    prepared X o w sfm_data regions_type p ∧ completes X o w sfm_data regions_type.
Proof.
  unfold completes. split.
  - destruct (run_outcome X o w); cbn [fst]; intros Hs;
      try (cbn in Hs; discriminate Hs).
    + eexists _, _, _. split; [done|]. rewrite decide_True by done.
      exists m. by apply parse_matches_Some.
    + eexists _, _, _. split; [done|]. rewrite decide_False by done.
      split; [by eexists|]. split; [by eexists|done].
  - intros (sd & r & p & Hp & Hc). destruct (decide (resumes o w)) as [Hr|Hr].
    + rewrite (run_resumed X _ _ _ _ _ Hp Hr). by destruct Hc as [m ->].
    + destruct Hc as ([matcher Hm] & [pairs Hpairs] & Hro).
      rewrite (run_recomputed X _ _ _ _ _ Hp Hr). cbn zeta.
      by rewrite Hm, Hpairs, decide_False.
Qed.

(** X5.  A run that returns [EXIT_SUCCESS] ends with the two exports, in this
    order and nowhere else: the adjacency matrix for as many images as the
    scene has views, then the graph of the scene, both built from the result
    that the match file holds when the run ends. *)
Theorem success_ends_with_exports (X : Collaborators) (o : Options) (w : World) :
  (run X o w).1 = EXIT_SUCCESS →
  ∃ sfm_data m before,
    sfm_data_files w !! sSfM_Data_Filename o = Some sfm_data ∧
    matches_files (world (run X o w).2) !! sOutputFilename o
      = Some (SerializedMatches m) ∧
    trace (run X o w).2 =
      before ++
      [ Call_PairWiseMatchingToAdjacencyMatrixSVG (size (GetViews sfm_data)) m
          (adjacency_path X o);
        Call_exportToGraphvizData (graph_path X o) (putativeGraph sfm_data m) ] ∧
    Forall (λ e, is_export e = false) before.
Proof.
  destruct (run_outcome X o w) as
    [| | | | |sd r p m Hp Hr Hm| | | | |sd r p matcher pairs Hp Hr Hm Hpairs Hro];
    cbn [fst snd world trace]; intros Hs; try (cbn in Hs; discriminate Hs).
  - exists sd, m, (reload X o). split; [apply Hp|]. split.
    + by rewrite exported_matches_files.
    + split; [done|apply reload_no_export].
  - eexists sd, _, (approach X o ++ engine_calls o sd matcher pairs _).
    split; [apply Hp|]. split.
    + rewrite exported_matches_files. cbn. apply lookup_insert_eq.
    + split; [by rewrite <- app_assoc|].
      apply Forall_app. split; [apply approach_no_export|repeat constructor].
Qed.

Lemma success_ends_with_exports_witness :
  let o := Demo.options "HNSWL2" true 2 in
  let r := run Demo.collaborators o Demo.resumable in
  r.1 = EXIT_SUCCESS ∧
  ∃ m, matches_files (world r.2) !! "m/matches.bin" = Some (SerializedMatches m) ∧
       last (trace r.2)
         = Some (Call_exportToGraphvizData "m/putative_matches"
                   (putativeGraph Demo.scene m)).
Proof.
  intros o r.
  assert (r.1 = EXIT_SUCCESS) as Hs by reflexivity.
  split; [exact Hs|].
  destruct (success_ends_with_exports Demo.collaborators o Demo.resumable Hs)
    as (sd & m & before & Hscene & Hfile & Htrace & _).
  injection Hscene as <-.
  exists m. split; [exact Hfile|].
  fold r in Htrace. rewrite Htrace.
  rewrite last_app. reflexivity.
Defined.

(** ** Forcing the computation *)

Section Forcing.

Context (X : Collaborators).

Lemma Match_from_set_matches_files mf w matcher p pairs m :
  Match_from X (set_matches_files mf w) matcher p pairs m = Match_from X w matcher p pairs m.
Proof.
  unfold Match_from. generalize (m, p). induction (elements pairs) as [|pr l IH]; intros acc.
  - reflexivity.
  - cbn [foldl]. change (Match_step X (set_matches_files mf w)) with (Match_step X w).
    apply IH.
Qed.

Lemma forced_not_resumes o w : bForce o = true → ¬ resumes o w.
Proof. intros Hf [Hf' _]. congruence. Qed.

Lemma approach_forced o : bForce o = true → approach X o = preparation X o.
Proof. intros Hf. unfold approach. rewrite Hf. apply app_nil_r. Qed.

End Forcing.

(** X6.  With the force flag set, [main] never asks whether the match file
    exists and never loads it: the run is the same whatever the match store
    holds, and when it succeeds the match file holds the result it has just
    computed, replacing what was there. *)
Theorem forced_run_ignores_previous_output (X : Collaborators) (o : Options) (w : World) :
  bForce o = true →
  Forall (λ e, reads_store e = false) (trace (run X o w).2) ∧
  (∀ mf, (run X o (set_matches_files mf w)).1 = (run X o w).1 ∧
         trace (run X o (set_matches_files mf w)).2 = trace (run X o w).2) ∧
  ((run X o w).1 = EXIT_SUCCESS →
   ∃ m, Call_Save m (sOutputFilename o) ∈ trace (run X o w).2 ∧
        matches_files (world (run X o w).2) !! sOutputFilename o
          = Some (SerializedMatches m)).
Proof.
  intros Hf. split; [|split].
  - destruct (run_outcome X o w); cbn [snd trace];
      try (by exfalso; eapply forced_not_resumes);
      rewrite ?approach_forced by done; unfold preparation, engine_calls, exports;
      repeat constructor.
  - intros mf.
    assert (preparation_outcome X o (set_matches_files mf w) = preparation_outcome X o w)
      as Hsame by reflexivity.
    destruct (run_preparation_cases X o w) as [(tr & Hout & ->)|(sd & r & p & Hp)].
    { rewrite <- Hsame in Hout. by rewrite (run_unprepared X _ _ _ Hout). }
    assert (prepared X o (set_matches_files mf w) sd r p) as Hp' by exact Hp.
    rewrite (run_recomputed X _ _ _ _ _ Hp (forced_not_resumes o w Hf)).
    rewrite (run_recomputed X _ _ _ _ _ Hp' (forced_not_resumes o _ Hf)).
    cbn zeta.
    change (loadPairs_from (set_matches_files mf w)) with (loadPairs_from w).
    cbn [read_only set_matches_files].
    destruct (collectionMatcher _ _ _) as [matcher|]; [|done].
    destruct (loadPairs_from _ _ _) as [e|pairs]; [done|].
    rewrite Match_from_set_matches_files.
    by destruct (decide _).
  - destruct (run_outcome X o w); cbn [fst snd world trace]; intros Hs;
      try (cbn in Hs; discriminate Hs).
    + by exfalso; eapply forced_not_resumes.
    + eexists. split.
      * apply elem_of_app; right. apply elem_of_app; left.
        unfold engine_calls. is_listed.
      * rewrite exported_matches_files. cbn. apply lookup_insert_eq.
Qed.

Lemma forced_run_ignores_previous_output_witness :
  let o := Demo.options "AUTO" true 0 in
  let r := run Demo.collaborators o Demo.resumable in
  bForce o = true ∧
  r.1 = (run Demo.collaborators o (Demo.fresh Demo.scalar)).1 ∧
  Forall (λ e, reads_store e = false) (trace r.2).
Proof.
  intros o r.
  destruct (forced_run_ignores_previous_output Demo.collaborators o
              (Demo.fresh Demo.scalar) eq_refl) as (_ & Hsame & _).
  destruct (forced_run_ignores_previous_output Demo.collaborators o
              Demo.resumable eq_refl) as (Hreads & _ & _).
  split; [reflexivity|]. split; [|exact Hreads].
  exact (proj1 (Hsame {[ "m/matches.bin" := SerializedMatches Demo.stored ]})).
Defined.

(** X7.  When something that is not a match file sits at the output path and
    the force flag is not set, a prepared run fails with "Cannot load input
    matches file": it does not fall back on computing, and it leaves the
    world, that file included, as it was.  The same run with the force flag
    set computes and, when the selector names a matcher, the pair list loads
    and the path can be written, succeeds and replaces the file. *)
Theorem unreadable_output_blocks_until_forced (X : Collaborators) (o : Options) (w : World)
    (sfm_data : SfM_Data) (regions_type : Regions) (p : provider) (text : string) :
  prepared X o w sfm_data regions_type p →
  bForce o = false →
  matches_files w !! sOutputFilename o = Some (NotAMatchesFile text) →
  run X o w =
    (EXIT_FAILURE,
     {| world := w; trace := reload X o ++ [Cerr Cannot_load_input_matches_file] |}) ∧
  engine_skipped (trace (run X o w).2) ∧
  (∀ matcher pairs,
     collectionMatcher (sNearestMatchingMethod o) regions_type (fDistRatio o) = Some matcher →
     loadPairs_from w (size (GetViews sfm_data)) (sPredefinedPairList o) = inr pairs →
     sOutputFilename o ∉ read_only w →
     (run X (with_force true o) w).1 = EXIT_SUCCESS ∧
     matches_files (world (run X (with_force true o) w).2) !! sOutputFilename o
       = Some (SerializedMatches (Match_from X w matcher p pairs ∅).1)).
Proof.
  intros Hp Hf Hfile.
  assert (resumes o w) as Hr by (split; [done|by eexists]).
  assert (run X o w =
            (EXIT_FAILURE,
             {| world := w;
                trace := reload X o ++ [Cerr Cannot_load_input_matches_file] |})) as Hrun.
  { rewrite (run_resumed X _ _ _ _ _ Hp Hr). by rewrite Hfile. }
  split; [exact Hrun|]. split.
  - by apply resumed_run_skips_engine.
  - intros matcher pairs Hm Hpairs Hro.
    assert (prepared X (with_force true o) w sfm_data regions_type p) as Hp' by exact Hp.
    assert (¬ resumes (with_force true o) w) as Hr' by (by apply forced_not_resumes).
    rewrite (run_recomputed X _ _ _ _ _ Hp' Hr'). cbn zeta.
    cbn [sNearestMatchingMethod fDistRatio sPredefinedPairList sOutputFilename with_force].
    rewrite Hm, Hpairs, decide_False by done. cbn [fst snd world].
    split; [done|]. rewrite exported_matches_files. cbn. apply lookup_insert_eq.
Qed.

Lemma demo_spoiled_prepared method force :
  prepared Demo.collaborators (Demo.options method force 0)
    Scenes.spoiled Demo.scene Demo.scalar Demo.loaded.
Proof. repeat split; try done. Qed.

Lemma unreadable_output_blocks_until_forced_witness :
  let o := Demo.options "AUTO" false 0 in
  (run Demo.collaborators o Scenes.spoiled).1 = EXIT_FAILURE ∧
  (run Demo.collaborators (with_force true o) Scenes.spoiled).1 = EXIT_SUCCESS.
Proof.
  intros o.
  destruct (unreadable_output_blocks_until_forced Demo.collaborators o Scenes.spoiled
              Demo.scene Demo.scalar Demo.loaded "junk"
              (demo_spoiled_prepared "AUTO" false) eq_refl eq_refl)
    as (Hrun & _ & Hforced).
  split; [by rewrite Hrun|].
  apply (Hforced (Cascade_Hashing_Matcher_Regions (fDistRatio o)) Demo.pairs).
  - reflexivity.
  - vm_compute. reflexivity.
  - vm_compute. intros Hin. discriminate Hin.
Defined.

(** ** The method table *)

Lemma collectionMatcher_ratio method regions_type ratio matcher :
  collectionMatcher method regions_type ratio = Some matcher →
  distRatio_of matcher = ratio.
Proof.
  unfold collectionMatcher.
  repeat case_match; intros [= <-]; reflexivity.
Qed.

(** X8.  The selector names no matcher exactly when it is none of the seven
    method names, or when it is AUTO and the regions type is neither scalar nor
    binary.  In the second case a prepared, computing run fails and complains
    about the method AUTO.  Whenever a matcher is allocated it carries the
    ratio of the options. *)
Theorem selector_names_no_matcher_iff (method : string) (regions_type : Regions) (ratio : Q) :
  (collectionMatcher method regions_type ratio = None ↔
   method ∉ method_names ∨
   (method = "AUTO" ∧ IsScalar regions_type = false ∧ IsBinary regions_type = false)) ∧
  (∀ matcher, collectionMatcher method regions_type ratio = Some matcher →
              distRatio_of matcher = ratio) ∧
  (∀ X o w sfm_data p,
     sNearestMatchingMethod o = "AUTO" →
     IsScalar regions_type = false → IsBinary regions_type = false →
     prepared X o w sfm_data regions_type p →
     ¬ resumes o w →
     run X o w =
       (EXIT_FAILURE,
        {| world := w;
           trace := approach X o ++ [Cerr (Invalid_Nearest_Neighbor_method "AUTO")] |})).
Proof.
  split; [|split].
  - split.
    + intros Hnone. destruct (decide (method ∈ method_names)) as [Hin|Hin]; [|by left].
      right. destruct (decide (method = "AUTO")) as [->|Hne].
      * unfold collectionMatcher in Hnone. cbn in Hnone.
        destruct (IsScalar regions_type); [done|].
        by destruct (IsBinary regions_type).
      * destruct (collectionMatcher_recognized method regions_type ratio Hin Hne)
          as [matcher Hm]. congruence.
    + intros [Hin|(-> & Hs & Hb)].
      * by apply collectionMatcher_unrecognized.
      * unfold collectionMatcher. cbn. by rewrite Hs, Hb.
  - intros matcher. apply collectionMatcher_ratio.
  - intros X o w sd p Hauto Hs Hb Hp Hr.
    rewrite (run_recomputed X _ _ _ _ _ Hp Hr). cbn zeta. rewrite Hauto.
    unfold collectionMatcher. cbn. by rewrite Hs, Hb.
Qed.

Lemma selector_names_no_matcher_iff_witness :
  let o := Demo.options "AUTO" false 0 in
  (run Demo.collaborators o (Demo.fresh Scenes.neither)).1 = EXIT_FAILURE ∧
  Cerr (Invalid_Nearest_Neighbor_method "AUTO")
    ∈ trace (run Demo.collaborators o (Demo.fresh Scenes.neither)).2.
Proof.
  intros o.
  destruct (selector_names_no_matcher_iff "AUTO" Scenes.neither (fDistRatio o))
    as (_ & _ & Hrun).
  rewrite (Hrun Demo.collaborators o (Demo.fresh Scenes.neither) Demo.scene Demo.loaded
             eq_refl eq_refl eq_refl
             (demo_prepared_unbounded "AUTO" false Scenes.neither)
             (demo_not_resumes "AUTO" false 0%N Scenes.neither)).
  split; [reflexivity|]. cbn [snd trace]. apply elem_of_app; right. is_listed.
Defined.

(** Two selectors that name the same matcher for the regions type declared in
    the world give the same run. *)
Lemma run_same_matcher (X : Collaborators) (o : Options) (w : World) (m1 m2 : string) :
  (∀ regions_type,
     image_describer_files w !! sImage_describer X o = Some regions_type →
     ∃ matcher,
       collectionMatcher m1 regions_type (fDistRatio o) = Some matcher ∧
       collectionMatcher m2 regions_type (fDistRatio o) = Some matcher) →
  run X (with_method m1 o) w = run X (with_method m2 o) w.
Proof.
  intros Hsame.
  destruct (preparation_outcome X o w) as [tr|[[sd r] p]] eqn:Hout.
  { rewrite (run_unprepared X (with_method m1 o) w tr Hout).
    by rewrite (run_unprepared X (with_method m2 o) w tr Hout). }
  apply preparation_outcome_prepared in Hout.
  assert (prepared X (with_method m1 o) w sd r p) as Hp1 by exact Hout.
  assert (prepared X (with_method m2 o) w sd r p) as Hp2 by exact Hout.
  destruct (decide (resumes o w)) as [Hr|Hr].
  - assert (resumes (with_method m1 o) w) as Hr1 by exact Hr.
    assert (resumes (with_method m2 o) w) as Hr2 by exact Hr.
    rewrite (run_resumed X _ _ _ _ _ Hp1 Hr1), (run_resumed X _ _ _ _ _ Hp2 Hr2).
    reflexivity.
  - assert (¬ resumes (with_method m1 o) w) as Hr1 by exact Hr.
    assert (¬ resumes (with_method m2 o) w) as Hr2 by exact Hr.
    rewrite (run_recomputed X _ _ _ _ _ Hp1 Hr1), (run_recomputed X _ _ _ _ _ Hp2 Hr2).
    cbn zeta.
    cbn [sNearestMatchingMethod fDistRatio sPredefinedPairList sOutputFilename with_method].
    destruct (Hsame r) as (matcher & -> & ->); [apply Hout|].
    reflexivity.
Qed.

(** X9.  AUTO is a synonym: on a scalar regions type the whole run is the run
    with FASTCASCADEHASHINGL2, and on a regions type that is binary and not
    scalar it is the run with BRUTEFORCEHAMMING (same status, same calls, same
    files). *)
Theorem auto_is_a_synonym (X : Collaborators) (o : Options) (w : World)
    (regions_type : Regions) :
  image_describer_files w !! sImage_describer X o = Some regions_type →
  (IsScalar regions_type = true →
   run X (with_method "AUTO" o) w = run X (with_method "FASTCASCADEHASHINGL2" o) w) ∧
  (IsScalar regions_type = false → IsBinary regions_type = true →
   run X (with_method "AUTO" o) w = run X (with_method "BRUTEFORCEHAMMING" o) w).
Proof.
  intros Hd. split.
  - intros Hs. apply run_same_matcher. intros r Hr.
    assert (r = regions_type) as -> by congruence.
    eexists. unfold collectionMatcher. cbn. rewrite Hs. done.
  - intros Hs Hb. apply run_same_matcher. intros r Hr.
    assert (r = regions_type) as -> by congruence.
    eexists. unfold collectionMatcher. cbn. rewrite Hs, Hb. done.
Qed.

Lemma auto_is_a_synonym_witness :
  let o := Demo.options "ANNL2" true 2 in
  run Demo.collaborators (with_method "AUTO" o) (Demo.fresh Demo.scalar)
    = run Demo.collaborators (with_method "FASTCASCADEHASHINGL2" o) (Demo.fresh Demo.scalar) ∧
  run Demo.collaborators (with_method "AUTO" o) (Demo.fresh Demo.binary)
    = run Demo.collaborators (with_method "BRUTEFORCEHAMMING" o) (Demo.fresh Demo.binary).
Proof.
  intros o. split.
  - exact (proj1 (auto_is_a_synonym Demo.collaborators o (Demo.fresh Demo.scalar)
                    Demo.scalar eq_refl) eq_refl).
  - exact (proj2 (auto_is_a_synonym Demo.collaborators o (Demo.fresh Demo.binary)
                    Demo.binary eq_refl) eq_refl eq_refl).
Defined.

(** ** What the matcher is called on *)

Lemma not_Match_in (tr : list Event) matcher pairs :
  Call_Match matcher pairs ∈ tr → Forall (λ e, is_Match e = false) tr → False.
Proof.
  intros Hin Hall. rewrite Forall_forall in Hall.
  specialize (Hall _ Hin). discriminate Hall.
Qed.

Lemma approach_no_Match (X : Collaborators) o :
  Forall (λ e, is_Match e = false) (approach X o).
Proof. unfold approach, preparation. destruct (bForce o); repeat constructor. Qed.

Lemma Match_in_engine_calls o sfm_data matcher pairs m matcher' pairs' :
  Call_Match matcher' pairs' ∈ engine_calls o sfm_data matcher pairs m →
  matcher' = matcher ∧ pairs' = pairs.
Proof.
  unfold engine_calls. intros Hin.
  apply elem_of_cons in Hin as [Hin|Hin]; [discriminate Hin|].
  apply elem_of_cons in Hin as [Hin|Hin]; [by injection Hin|].
  apply list_elem_of_singleton in Hin. discriminate Hin.
Qed.

(** X10.  Whenever [Match] is called, the run is not resuming, the matcher is
    the one the selector names for the regions type read from the describer
    file, built with the ratio of the options, and the pairs are those loaded
    from the pair list with the number of views of the scene as bound. *)
Theorem match_is_called_on_the_options (X : Collaborators) (o : Options) (w : World)
    (matcher : Matcher) (pairs : Pair_Set) :
  Call_Match matcher pairs ∈ trace (run X o w).2 →
  ∃ sfm_data regions_type,
    sfm_data_files w !! sSfM_Data_Filename o = Some sfm_data ∧
    image_describer_files w !! sImage_describer X o = Some regions_type ∧
    collectionMatcher (sNearestMatchingMethod o) regions_type (fDistRatio o)
      = Some matcher ∧
    distRatio_of matcher = fDistRatio o ∧
    loadPairs_from w (size (GetViews sfm_data)) (sPredefinedPairList o) = inr pairs ∧
    ¬ resumes o w.
Proof.
  assert (∀ sd r p matcher0 pairs0 m,
            prepared X o w sd r p → ¬ resumes o w →
            collectionMatcher (sNearestMatchingMethod o) r (fDistRatio o) = Some matcher0 →
            loadPairs_from w (size (GetViews sd)) (sPredefinedPairList o) = inr pairs0 →
            Call_Match matcher pairs ∈ engine_calls o sd matcher0 pairs0 m →
            ∃ sfm_data regions_type,
              sfm_data_files w !! sSfM_Data_Filename o = Some sfm_data ∧
              image_describer_files w !! sImage_describer X o = Some regions_type ∧
              collectionMatcher (sNearestMatchingMethod o) regions_type (fDistRatio o)
                = Some matcher ∧
              distRatio_of matcher = fDistRatio o ∧
              loadPairs_from w (size (GetViews sfm_data)) (sPredefinedPairList o)
                = inr pairs ∧
              ¬ resumes o w) as Hengine.
  { intros sd r p matcher0 pairs0 m Hp Hr Hm Hpairs Hin.
    apply Match_in_engine_calls in Hin as [-> ->].
    exists sd, r. destruct Hp as (_ & _ & Hs & Hd & _).
    repeat split; try done. by eapply collectionMatcher_ratio. }
  destruct (run_outcome X o w); cbn [snd trace]; intros Hin;
    try (exfalso; eapply not_Match_in; [exact Hin|];
         solve [ repeat constructor
               | apply Forall_app; split; [apply approach_no_Match|repeat constructor] ]).
  - apply elem_of_app in Hin as [Hin|Hin].
    { exfalso. eapply not_Match_in; [exact Hin|apply approach_no_Match]. }
    apply elem_of_app in Hin as [Hin|Hin]; [by eapply Hengine|].
    exfalso. eapply not_Match_in; [exact Hin|repeat constructor].
  - apply elem_of_app in Hin as [Hin|Hin].
    { exfalso. eapply not_Match_in; [exact Hin|apply approach_no_Match]. }
    apply elem_of_app in Hin as [Hin|Hin]; [by eapply Hengine|].
    exfalso. eapply not_Match_in; [exact Hin|repeat constructor].
Qed.

Lemma demo_Match_called :
  Call_Match (Cascade_Hashing_Matcher_Regions (Qmake 8 10)) Demo.pairs
    ∈ trace (run Demo.collaborators (Demo.options "AUTO" false 0)
               (Demo.fresh Demo.scalar)).2.
Proof.
  rewrite (run_recomputed Demo.collaborators _ _ _ _ _
             (demo_prepared_unbounded "AUTO" false Demo.scalar)
             (demo_not_resumes "AUTO" false 0%N Demo.scalar)).
  cbn zeta. change (sPredefinedPairList (Demo.options "AUTO" false 0)) with "pairs.txt".
  rewrite (demo_pairs Demo.scalar).
  change (collectionMatcher _ _ _)
    with (Some (Cascade_Hashing_Matcher_Regions (Qmake 8 10))).
  destruct (decide _); cbn [snd trace];
    apply elem_of_app; right; apply elem_of_app; left; is_listed.
Qed.

Lemma match_is_called_on_the_options_witness :
  let o := Demo.options "AUTO" false 0 in
  Call_Match (Cascade_Hashing_Matcher_Regions (Qmake 8 10)) Demo.pairs
    ∈ trace (run Demo.collaborators o (Demo.fresh Demo.scalar)).2 ∧
  loadPairs_from (Demo.fresh Demo.scalar) 3 "pairs.txt" = inr Demo.pairs.
Proof.
  intros o. split; [exact demo_Match_called|].
  destruct (match_is_called_on_the_options Demo.collaborators o (Demo.fresh Demo.scalar)
              _ _ demo_Match_called) as (sd & r & Hs & _ & _ & _ & Hpairs & _).
  injection Hs as <-. exact Hpairs.
Defined.

(** ** Running again *)

Section Again.

Context (X : Collaborators).

(** The preparation only looks at the inputs: it is the same after a match
    file has been saved and diagnostics have been exported. *)
Lemma prepared_export_diagnostic o w f d sfm_data regions_type p :
  prepared X o w sfm_data regions_type p →
  prepared X o (export_diagnostic f d w) sfm_data regions_type p.
Proof. unfold export_diagnostic. by destruct (decide _). Qed.

Lemma prepared_exported o o' w sfm_data m sd regions_type p :
  prepared X o w sd regions_type p →
  prepared X o (exported X o' sfm_data m w) sd regions_type p.
Proof. intros Hp. unfold exported. by do 2 apply prepared_export_diagnostic. Qed.

End Again.

(** X11.  After a run that returned [EXIT_SUCCESS], forced or not, running
    again on the world it left with the force flag cleared resumes: it
    succeeds, makes no engine call, leaves the match store as it is, and ends
    with the same two exports as the first run. *)
Theorem rerun_resumes_from_saved_result (X : Collaborators) (o : Options) (w : World) :
  (run X o w).1 = EXIT_SUCCESS →
  let first := run X o w in
  let second := run X (with_force false o) (world first.2) in
  second.1 = EXIT_SUCCESS ∧
  engine_skipped (trace second.2) ∧
  matches_files (world second.2) = matches_files (world first.2) ∧
  ∃ sfm_data m before,
    trace first.2 = before ++ exports X o sfm_data m ∧
    trace second.2 = reload X o ++ exports X o sfm_data m.
Proof.
  intros Hs first second. subst first second.
  assert (∀ sd r p m w' before,
            prepared X o w' sd r p →
            matches_files w' !! sOutputFilename o = Some (SerializedMatches m) →
            let second := run X (with_force false o) (exported X o sd m w') in
            second.1 = EXIT_SUCCESS ∧
            engine_skipped (trace second.2) ∧
            matches_files (world second.2) = matches_files (exported X o sd m w') ∧
            ∃ sfm_data m0 before0,
              before ++ exports X o sd m = before0 ++ exports X o sfm_data m0 ∧
              trace second.2 = reload X o ++ exports X o sfm_data m0) as Hagain.
  { intros sd r p m w' before Hp Hfile second.
    assert (prepared X (with_force false o) (exported X o sd m w') sd r p) as Hp'.
    { apply (prepared_exported X (with_force false o)). exact Hp. }
    assert (resumes (with_force false o) (exported X o sd m w')) as Hr'.
    { split; [done|]. rewrite exported_matches_files. cbn. by eexists. }
    subst second. rewrite (run_resumed X _ _ _ _ _ Hp' Hr').
    rewrite exported_matches_files.
    change (sOutputFilename (with_force false o)) with (sOutputFilename o).
    rewrite Hfile. cbn [parse_matches fst snd world trace].
    split; [done|]. split.
    { apply engine_skipped_app; [apply engine_skipped_reload|apply engine_skipped_exports]. }
    split; [by rewrite !exported_matches_files|].
    by exists sd, m, before. }
  destruct (run_outcome X o w) as
    [| | | | |sd r p m Hp Hr Hm| | | | |sd r p matcher pairs Hp Hr Hm Hpairs Hro];
    cbn [fst snd world trace] in *; try (cbn in Hs; discriminate Hs).
  - by apply (Hagain sd r p m w (reload X o)).
  - rewrite (assoc_L (++)).
    apply (Hagain sd r p _ _ (approach X o ++ engine_calls o sd matcher pairs _)).
    + exact Hp.
    + cbn. apply lookup_insert_eq.
Qed.

Lemma rerun_resumes_from_saved_result_witness :
  let o := Demo.options "BRUTEFORCEL2" true 2 in
  let first := run Demo.collaborators o (Demo.fresh Demo.scalar) in
  let second := run Demo.collaborators (with_force false o) (world first.2) in
  first.1 = EXIT_SUCCESS ∧ second.1 = EXIT_SUCCESS ∧ engine_skipped (trace second.2).
Proof.
  intros o first second.
  assert (first.1 = EXIT_SUCCESS) as Hs by reflexivity.
  destruct (rerun_resumes_from_saved_result Demo.collaborators o (Demo.fresh Demo.scalar) Hs)
    as (Hsecond & Hskip & _).
  split; [exact Hs|]. split; [exact Hsecond|exact Hskip].
Defined.

(** ** The order of the calls *)

Lemma calls_app tr1 tr2 : calls (tr1 ++ tr2) = calls tr1 ++ calls tr2.
Proof. unfold calls. apply List.filter_app. Qed.

Lemma calls_all tr : Forall (λ e, is_call e = true) tr → calls tr = tr.
Proof.
  unfold calls. induction 1 as [|e tr He Hall IH]; [done|].
  cbn. by rewrite He, IH.
Qed.

Lemma calls_snoc_message tr msg :
  Forall (λ e, is_call e = true) tr → calls (tr ++ [Cerr msg]) = tr.
Proof. intros Hall. rewrite calls_app, (calls_all _ Hall). apply app_nil_r. Qed.

(** X12.  The calls of a run, in the order they are made, are an initial part
    of one of two sequences: scene, regions type, regions, existence test,
    reload, adjacency matrix, graph; or scene, regions type, regions,
    existence test unless forced, pair list, matching, save, adjacency matrix,
    graph.  So no collaborator is called twice or out of this order, and a run
    never both reloads and computes. *)
Theorem calls_follow_one_of_two_sequences (X : Collaborators) (o : Options) (w : World) :
  ∃ sfm_data matcher pairs m,
    calls (trace (run X o w).2) `prefix_of` resuming_sequence X o sfm_data m ∨
    calls (trace (run X o w).2)
      `prefix_of` computing_sequence X o sfm_data matcher pairs m.
Proof.
  set (nowhere := {| s_root_path := EmptyString; views := ∅ |}).
  set (nothing := Cascade_Hashing_Matcher_Regions (fDistRatio o)).
  unfold resuming_sequence, computing_sequence.
  destruct (run_outcome X o w) as
    [ | | | sd | sd r | sd r p m | sd r p | sd r p | sd r p matcher e
    | sd r p matcher pairs | sd r p matcher pairs ];
    cbn [snd trace].
  - exists nowhere, nothing, ∅, ∅. left. by eexists.
  - exists nowhere, nothing, ∅, ∅. left. by eexists.
  - exists nowhere, nothing, ∅, ∅. left. by eexists.
  - exists sd, nothing, ∅, ∅. left. by eexists.
  - exists sd, nothing, ∅, ∅. left.
    rewrite (calls_snoc_message _ _ (preparation_calls X o)).
    unfold reload. rewrite <- app_assoc. by eexists.
  - exists sd, nothing, ∅, m. left.
    rewrite calls_all; [done|].
    apply Forall_app. split; [apply reload_calls|apply exports_calls].
  - exists sd, nothing, ∅, ∅. left.
    rewrite (calls_snoc_message _ _ (reload_calls X o)). by eexists.
  - exists sd, nothing, ∅, ∅. right.
    rewrite (calls_snoc_message _ _ (approach_calls X o)). by eexists.
  - exists sd, matcher, ∅, ∅. right.
    rewrite calls_app, (calls_all _ (approach_calls X o)).
    apply prefix_app. by eexists.
  - eexists sd, matcher, pairs, _. right.
    rewrite (assoc_L (++)), calls_snoc_message.
    + apply prefix_app, prefix_app_r. done.
    + apply Forall_app. split; [apply approach_calls|apply engine_calls_calls].
  - eexists sd, matcher, pairs, _. right.
    rewrite calls_all; [done|].
    rewrite !Forall_app.
    split; [apply approach_calls|]. split; [apply engine_calls_calls|apply exports_calls].
Qed.

(** ** The equivalences at work on the demo scene *)

Lemma main_fails_before_any_work_iff_witness :
  let X := Scenes.reading (Demo.options "AUTO" false 0) in
  fails_before_any_work Demo.resumable (main X ["ComputeMatches"] Demo.resumable) ∧
  ¬ fails_before_any_work Demo.resumable
      (main X ["ComputeMatches"; "-o"; "m/matches.bin"] Demo.resumable).
Proof.
  intros X. split.
  - apply (main_fails_before_any_work_iff X ["ComputeMatches"] Demo.resumable).
    by left.
  - intros Hfails.
    apply (main_fails_before_any_work_iff X ["ComputeMatches"; "-o"; "m/matches.bin"]
             Demo.resumable) in Hfails.
    destruct Hfails as [Hargc|[Hp|Ho]]; discriminate.
Defined.

Lemma run_succeeds_iff_witness :
  let o := Demo.options "NO_SUCH_METHOD" false 0 in
  (run Demo.collaborators o Demo.resumable).1 = EXIT_SUCCESS ∧
  ¬ completes Demo.collaborators o (Demo.fresh Demo.scalar) Demo.scene Demo.scalar.
Proof.
  intros o. split.
  - apply (run_succeeds_iff Demo.collaborators o Demo.resumable).
    exists Demo.scene, Demo.scalar, Demo.loaded.
    split; [apply demo_resumable_prepared|].
    unfold completes. rewrite decide_True by apply demo_resumes. by eexists.
  - unfold completes. rewrite decide_False by apply demo_not_resumes.
    intros ([matcher Hm] & _). discriminate Hm.
Defined.

(** ** The provider of a run *)

(** C4.  In a run that gets as far as the regions, the provider is loaded at
    startup, right after the scene and the regions type and before anything
    else, with the cache size of the options; the provider that load returns
    is the one the engine fetches from.  With cache size 0 it is the unbounded
    provider: the load succeeds exactly when the data of every view is there
    (the run fails with "Invalid regions" otherwise), and afterwards a fetch
    of a view of the scene is a lookup that needs no file, always answers and
    evicts nothing.  With a cache size [c] other than 0 it is the bounded
    provider of capacity [c]: the load reads nothing, so a resuming run needs
    no region data at all, and after any sequence of fetches the provider
    holds the [c] most recently used deliverable views, at most [c] of them. *)
Theorem cache_size_selects_provider (X : Collaborators) (o : Options) (w : World)
    (sfm_data : SfM_Data) (regions_type : Regions) :
  sPredefinedPairList o ≠ EmptyString →
  sOutputFilename o ≠ EmptyString →
  sfm_data_files w !! sSfM_Data_Filename o = Some sfm_data →
  image_describer_files w !! sImage_describer X o = Some regions_type →
  let c := ui_max_cache_size o in
  let dir := sMatchesDirectory X o in
  let known := dom (GetViews sfm_data) in
  (∃ rest,
     trace (run X o w).2 =
       [ Call_Load_SfM_Data (sSfM_Data_Filename o);
         Call_Init_region_type_from_file (sImage_describer X o);
         Call_regions_provider_load c dir ] ++ rest) ∧
  (∀ p matcher pairs,
     prepared X o w sfm_data regions_type p →
     ¬ resumes o w →
     collectionMatcher (sNearestMatchingMethod o) regions_type (fDistRatio o) = Some matcher →
     loadPairs_from w (size (GetViews sfm_data)) (sPredefinedPairList o) = inr pairs →
     sOutputFilename o ∉ read_only w →
     matches_files (world (run X o w).2) !! sOutputFilename o
       = Some (SerializedMatches (Match_from X w matcher p pairs ∅).1)) ∧
  (c = 0%N →
     ((∃ p, prepared X o w sfm_data regions_type p) ↔
      (∀ id, id ∈ known → is_Some (regions_files w !! (dir, id)))) ∧
     (∀ id, id ∈ known → regions_files w !! (dir, id) = None →
        run X o w =
          (EXIT_FAILURE,
           {| world := w; trace := preparation X o ++ [Cerr Invalid_regions] |})) ∧
     (∀ p, prepared X o w sfm_data regions_type p →
        capacity_of p = 0%N ∧
        (∀ id, id ∈ known →
           ∃ r, regions_files w !! (dir, id) = Some r ∧
                ∀ w', fetch w' p id = (Some r, p)) ∧
        (∀ w' ids, fetches w' p ids = p))) ∧
  (c ≠ 0%N →
     let p0 := Regions_Provider_Cache c dir known [] in
     (∀ p, prepared X o w sfm_data regions_type p ↔ p = p0) ∧
     held p0 = [] ∧
     (∀ m, resumes o w →
           matches_files w !! sOutputFilename o = Some (SerializedMatches m) →
           (run X o w).1 = EXIT_SUCCESS) ∧
     (∀ ids,
        let q := fetches w p0 ids in
        capacity_of q = c ∧
        held q = most_recent c (filter (deliverable w dir known) ids) ∧
        (length (held q) ≤ N.to_nat c)%nat ∧
        ∀ id, (fetch w q id).1 =
                if decide (id ∈ known) then regions_files w !! (dir, id) else None)).
Proof.
  intros Hpairs Hout Hscene Hd c dir known.
  destruct (provider_by_capacity w sfm_data dir regions_type)
    as (_ & _ & Hall & Hunbounded & Hbounded).
  assert (∀ p, prepared X o w sfm_data regions_type p ↔
               provider_load w (regions_provider c) sfm_data dir regions_type = Some p)
    as Hprepared.
  { intros p. unfold prepared. fold c dir. split; [by intros (_ & _ & _ & _ & ?)|done]. }
  assert (provider_load w (regions_provider c) sfm_data dir regions_type = None →
          run X o w =
            (EXIT_FAILURE,
             {| world := w; trace := preparation X o ++ [Cerr Invalid_regions] |}))
    as Hinvalid.
  { intros Hl. apply run_unprepared. unfold preparation_outcome. fold c dir.
    by rewrite (eqb_empty_false _ Hpairs), (eqb_empty_false _ Hout), Hscene, Hd, Hl. }
  split; [|split; [|split]].
  - destruct (run_outcome X o w) as
      [Hp|_ Ho|_ _ Hs|sd _ _ _ Hd'| | | | | | | ]; cbn [snd trace];
      try done; try congruence;
      unfold reload, approach, preparation; fold c dir;
      rewrite <- ?app_assoc; by eexists.
  - intros p matcher pairs Hp Hr Hm Hload Hro.
    rewrite (run_recomputed X _ _ _ _ _ Hp Hr). cbn zeta.
    rewrite Hm, Hload, decide_False by done. cbn [snd world].
    rewrite exported_matches_files. cbn. apply lookup_insert_eq.
  - intros Hc. rewrite Hc in Hprepared, Hinvalid. split; [|split].
    + split.
      * intros [p Hp]. apply Hall. exists p. by apply Hprepared.
      * intros Hdata. destruct (proj2 Hall Hdata) as [p Hp].
        exists p. by apply Hprepared.
    + intros id Hid Hnone. apply Hinvalid.
      rewrite regions_provider_unbounded. by eapply provider_load_unbounded_missing.
    + intros p Hp. apply Hprepared in Hp.
      destruct (Hunbounded p Hp) as [Hfetch Hfetches].
      split; [|by split].
      rewrite regions_provider_unbounded in Hp.
      by apply provider_load_unbounded in Hp as (loaded & -> & _).
  - intros Hc p0. destruct (Hbounded c Hc) as (Hload & Hheld & Hfetches).
    split; [|split; [exact Hheld|split; [|exact Hfetches]]].
    + intros p. rewrite Hprepared, Hload. split; [by intros [= <-]|by intros ->].
    + intros m Hr Hm.
      assert (prepared X o w sfm_data regions_type p0) as Hp by by apply Hprepared.
      rewrite (run_resumed X _ _ _ _ _ Hp Hr). by rewrite Hm.
Qed.

Lemma cache_size_selects_provider_witness :
  let bounded := Demo.options "AUTO" false 2 in
  let unbounded := Demo.options "AUTO" false 0 in
  (run Demo.collaborators bounded Demo.damaged).1 = EXIT_SUCCESS ∧
  (run Demo.collaborators unbounded Demo.damaged).1 = EXIT_FAILURE ∧
  held (fetches Demo.damaged (Demo.primed 2) [0%N; 1%N; 2%N; 1%N]) = [1%N; 0%N].
Proof.
  intros bounded unbounded.
  assert (sPredefinedPairList bounded ≠ EmptyString) as Hpairs by discriminate.
  assert (sOutputFilename bounded ≠ EmptyString) as Hout by discriminate.
  destruct (cache_size_selects_provider Demo.collaborators bounded Demo.damaged
              Demo.scene Demo.scalar Hpairs Hout eq_refl eq_refl)
    as (_ & _ & _ & Hcache).
  destruct (cache_size_selects_provider Demo.collaborators unbounded Demo.damaged
              Demo.scene Demo.scalar Hpairs Hout eq_refl eq_refl)
    as (_ & _ & Hall & _).
  assert (ui_max_cache_size bounded ≠ 0%N) as Hc by discriminate.
  destruct (Hcache Hc) as (_ & _ & Hresume & Hfetches).
  destruct (Hall eq_refl) as (_ & Hmissing & _).
  assert (resumes bounded Demo.damaged) as Hr by (split; [reflexivity|by eexists]).
  assert (2%N ∈ dom (GetViews Demo.scene)) as Hview by (vm_compute; reflexivity).
  split; [exact (Hresume Demo.stored Hr eq_refl)|]. split.
  - by rewrite (Hmissing 2%N Hview eq_refl).
  - destruct (Hfetches [0%N; 1%N; 2%N; 1%N]) as (_ & Hheld & _).
    etrans; [exact Hheld|]. vm_compute. reflexivity.
Defined.
